(** * Hound I/O subsystem: a shallow embedding of [io.c] and [schema.c]

    The development follows the C sources function by function.

    - Integers the code compares or wraps are [Z]; sizes and counts
      ([size_t]) are [nat]; [hound_seqno] is a 64-bit counter whose
      wrap-around is written out ([wrap64]).
    - The xlib vectors ([xvec_t]) are lists: [xv_A] is lookup, [xv_push]
      appends, [xv_pop] drops the last element.
    - Everything the I/O thread does to the outside (log lines, parse
      calls, [read], [queue_push], the pause barrier) is recorded in the
      [world] that every function threads through.
    - A failed [XASSERT_*] terminates the process (spec 7): [Aborted]. *)

From Stdlib Require Import ZArith Lia Strings.Byte.
From stdpp Require Import base numbers list strings.

Open Scope Z_scope.

(** ** Constants *)

(** [hound.h]: the error codes used by the I/O core. *)
Definition HOUND_OK : Z := 0.
Definition HOUND_OOM : Z := -2.
Definition HOUND_IO_ERROR : Z := -15.
Definition HOUND_INTR : Z := -21.

(** [errno.h] and [poll.h] on Linux. *)
Definition EINTR : Z := 4.
Definition EIO : Z := 5.
Definition ENOMEM : Z := 12.
Definition POLLIN : Z := 1.
Definition POLLPRI : Z := 2.

(** [driver.h]: maximum number of records a driver can produce from a
    single parse call. *)
Definition HOUND_DRIVER_MAX_RECORDS : nat := 1000.

(** [io.c] *)
Definition POLL_BUF_SIZE : nat := 100 * 1024.
Definition POLL_HAS_DATA : Z := Z.lor POLLIN POLLPRI.

(** [hound_seqno] is [uint_least64_t]: [++] wraps at 2^64. *)
Definition wrap64 (z : Z) : Z := z mod 2 ^ 64.

(** ** Data *)

(** [struct hound_record] *)
Record hound_record := mk_record {
  seqno : Z;
  data_id : Z;
  dev_id : Z;
  timestamp : Z * Z;
  size : Z;
  data : list byte;
}.

(** [struct record_info] of [queue.h]: a record and its reference count. *)
Record record_info := mk_rec_info {
  record : hound_record;
  refcount : nat;
}.

(** A [struct queue *]: queues are opaque to the I/O core, only their
    address matters. *)
Definition queue := nat.

(** What a driver's [parse] hook leaves behind: its return value, the value
    it stored in the in/out byte count, and the first [record_count] slots
    of the record array. *)
Record parse_reply := mk_reply {
  pr_err : Z;
  pr_bytes : nat;
  pr_records : list hound_record;
}.

(** One call of a driver's parse hook, as the core issued it. *)
Record parse_call := mk_call {
  pc_drv : Z;            (* the driver's id *)
  pc_pos : nat;          (* offset of [pos] in [s_read_buf] *)
  pc_buf : list byte;    (* the [*bytes] bytes at [pos] *)
  pc_capacity : nat;     (* length of the record array handed over *)
  pc_err : Z;
  pc_left : nat;         (* [*bytes] on return *)
  pc_records : list hound_record;  (* the [*record_count] records returned *)
}.

Inductive barrier_event := Pause | Resume.

(** The process state outside [s_ios]. *)
Record world := mk_world {
  w_read_buf : list byte;                  (* s_read_buf *)
  w_rec_infos : list (option record_info); (* wrappers; address = index *)
  w_alloc : list bool;                     (* fate of the next allocations *)
  w_log : list (Z * string);               (* log lines: code, format *)
  w_reads : list Z;                        (* fds given to read(2) *)
  w_calls : list parse_call;               (* parse hooks invoked *)
  w_pushes : list (queue * nat);           (* queue_push (queue, wrapper) *)
  w_barrier : list barrier_event;          (* io_pause_poll / io_resume_poll *)
}.

Definition set_read_buf (f : list byte → list byte) (w : world) : world :=
  mk_world (f (w_read_buf w)) (w_rec_infos w) (w_alloc w) (w_log w)
           (w_reads w) (w_calls w) (w_pushes w) (w_barrier w).
Definition set_rec_infos
    (f : list (option record_info) → list (option record_info))
    (w : world) : world :=
  mk_world (w_read_buf w) (f (w_rec_infos w)) (w_alloc w) (w_log w)
           (w_reads w) (w_calls w) (w_pushes w) (w_barrier w).
Definition set_alloc (f : list bool → list bool) (w : world) : world :=
  mk_world (w_read_buf w) (w_rec_infos w) (f (w_alloc w)) (w_log w)
           (w_reads w) (w_calls w) (w_pushes w) (w_barrier w).
Definition set_log (f : list (Z * string) → list (Z * string)) (w : world)
    : world :=
  mk_world (w_read_buf w) (w_rec_infos w) (w_alloc w) (f (w_log w))
           (w_reads w) (w_calls w) (w_pushes w) (w_barrier w).
Definition set_reads (f : list Z → list Z) (w : world) : world :=
  mk_world (w_read_buf w) (w_rec_infos w) (w_alloc w) (w_log w)
           (f (w_reads w)) (w_calls w) (w_pushes w) (w_barrier w).
Definition set_calls (f : list parse_call → list parse_call) (w : world)
    : world :=
  mk_world (w_read_buf w) (w_rec_infos w) (w_alloc w) (w_log w)
           (w_reads w) (f (w_calls w)) (w_pushes w) (w_barrier w).
Definition set_pushes (f : list (queue * nat) → list (queue * nat))
    (w : world) : world :=
  mk_world (w_read_buf w) (w_rec_infos w) (w_alloc w) (w_log w)
           (w_reads w) (w_calls w) (f (w_pushes w)) (w_barrier w).
Definition set_barrier (f : list barrier_event → list barrier_event)
    (w : world) : world :=
  mk_world (w_read_buf w) (w_rec_infos w) (w_alloc w) (w_log w)
           (w_reads w) (w_calls w) (w_pushes w) (f (w_barrier w)).

(** How a call ends: it returns, or an [XASSERT_*] fails (the text names
    the assertion) and the process stops in the given world. [OutOfFuel]
    is the bounded loop of the model giving up; [io_read_fuel_enough]
    shows that [io_read] never does. *)
Inductive outcome (A : Type) :=
| Ret (a : A)
| Aborted (assertion : string) (w : world)
| OutOfFuel.
Arguments Ret {A} a.
Arguments Aborted {A} assertion w.
Arguments OutOfFuel {A}.

(** ** Helpers the I/O core calls *)

(** The next allocation attempt succeeds unless the world says otherwise. *)
Definition next_alloc (w : world) : bool * world :=
  match w_alloc w with
  | [] => (true, w)
  | ok :: _ => (ok, set_alloc (drop 1) w)
  end.

(** [drv_alloc(sizeof(struct record_info))]: a fresh, unwritten wrapper,
    or NULL. *)
Definition drv_alloc (w : world) : option nat * world :=
  let '(ok, w) := next_alloc w in
  if ok
  then (Some (length (w_rec_infos w)), set_rec_infos (λ h, h ++ [None]) w)
  else (None, w).

(** Modelled from the spec: [hound_log_err] ([log.h] is not among the
    sources) writes a log line (spec 7: errors of the I/O thread are
    logged); the line is the error code and the format string. *)
Definition hound_log_err (err : Z) (msg : string) (w : world) : world :=
  set_log (λ l, l ++ [(err, msg)]) w.

(** Modelled from the spec: [atomic_ref_init] ([refcount.h] is not among
    the sources) creates the counter with the given value (spec 4.1:
    "Created with counter = N"). *)
Definition atomic_ref_init (count : nat) : nat := count.

(** Modelled from the spec: [queue_push] ([queue.c] is not among the
    sources) hands the wrapper to the queue and never blocks the producer
    (spec 4.2); what the I/O core contributes is the call, which is
    recorded. *)
Definition queue_push (q : queue) (rec_info : nat) (w : world) : world :=
  set_pushes (λ l, l ++ [(q, rec_info)]) w.

Section Drivers.

(** The private state of a driver (its statics and device context). *)
Context {drv_priv : Type}.

(** [struct driver], as far as the I/O core looks into it: the device id
    and the parse hook, which sees the bytes at [buf] and the capacity of
    the record array. *)
Record driver := mk_driver {
  id : Z;
  priv : drv_priv;
  parse : drv_priv → list byte → nat → drv_priv * parse_reply;
}.

(** [struct fdctx] *)
Record fdctx := mk_fdctx {
  drv : driver;
  next_seqno : Z;
  queues : list queue;
}.

(** Modelled from the spec: [drv_op_parse] ([driver-ops.h] is not among
    the sources) calls the parse hook of the driver on the buffer, the
    byte count and the record array (spec 4.5, step 4); the hook may
    change the private state of the driver. *)
Definition drv_op_parse (d : driver) (buf : list byte) (capacity : nat)
    : driver * parse_reply :=
  let '(p, reply) := parse d (priv d) buf capacity in
  (mk_driver (id d) p (parse d), reply).

(** ** [io_read] *)

(** The body of the loop over [s_records]: one record is wrapped and
    pushed to every queue of the fd. *)
Definition publish (ctx : fdctx) (rec : hound_record) (w : world)
    : fdctx * world :=
  match drv_alloc w with
  | (None, w) =>
      (ctx,
       hound_log_err HOUND_OOM
         "Failed to malloc a rec_info; can't add record to user queue" w)
  | (Some rec_info, w) =>
      let rec :=
        mk_record (next_seqno ctx) (data_id rec) (id (drv ctx))
                  (timestamp rec) (size rec) (data rec) in
      let ctx :=
        mk_fdctx (drv ctx) (wrap64 (next_seqno ctx + 1)) (queues ctx) in
      let info := mk_rec_info rec (atomic_ref_init (length (queues ctx))) in
      let w := set_rec_infos (λ h, <[rec_info := Some info]> h) w in
      (ctx, foldl (λ w q, queue_push q rec_info w) w (queues ctx))
  end.

(** [for (record = s_records; record < end; ++record)] *)
Fixpoint publish_all (ctx : fdctx) (records : list hound_record) (w : world)
    : fdctx * world :=
  match records with
  | [] => (ctx, w)
  | rec :: records =>
      let '(ctx, w) := publish ctx rec w in
      publish_all ctx records w
  end.

(** [while (bytes_left > 0)]: every turn but the last consumes at least one
    byte, so [fuel] above [bytes_left] is never used up. *)
Fixpoint parse_loop (fuel : nat) (ctx : fdctx) (pos bytes_left : nat)
    (w : world) : outcome (Z * fdctx * world) :=
  match fuel with
  | O => OutOfFuel
  | S fuel =>
      if decide (bytes_left = 0)%nat then Ret (HOUND_OK, ctx, w) else
      let bytes_total := bytes_left in
      let buf := take bytes_left (drop pos (w_read_buf w)) in
      let '(d, reply) :=
        drv_op_parse (drv ctx) buf HOUND_DRIVER_MAX_RECORDS in
      let ctx := mk_fdctx d (next_seqno ctx) (queues ctx) in
      let bytes_left := pr_bytes reply in
      let record_count := length (pr_records reply) in
      let w :=
        set_calls (λ l, l ++ [mk_call (id d) pos buf HOUND_DRIVER_MAX_RECORDS
                                      (pr_err reply) bytes_left
                                      (pr_records reply)])
                  w in
      if decide (pr_err reply ≠ HOUND_OK) then
        Ret (pr_err reply, ctx,
             hound_log_err (pr_err reply)
               "Driver failed to parse records (size = %zu, drv = 0x%p)" w)
      else if decide (bytes_total < bytes_left)%nat then
        Aborted "XASSERT_LTE(bytes_left, bytes_total)" w
      else if decide (bytes_left = bytes_total) then
        (* Driver can't make more records from this buffer. We're done. *)
        Ret (HOUND_OK, ctx, w)
      else if decide (record_count = 0)%nat then
        Aborted "XASSERT_GT(record_count, 0)" w
      else
        let pos := (pos + (bytes_total - bytes_left))%nat in
        let '(ctx, w) := publish_all ctx (pr_records reply) w in
        parse_loop fuel ctx pos bytes_left w
  end.

(** What [read(fd, s_read_buf, ARRAYLEN(s_read_buf))] did: it stored some
    bytes at the start of the buffer, or failed with an [errno]. *)
Inductive read_result :=
| ReadBytes (bytes : list byte)
| ReadError (errno : Z).

Definition io_read (fd : Z) (ctx : fdctx) (rd : read_result) (w : world)
    : outcome (Z * fdctx * world) :=
  let w := set_reads (λ l, l ++ [fd]) w in
  match rd with
  | ReadError errno =>
      (* Someone wanted to pause polling; we can finish reading later. *)
      if decide (errno = EINTR) then Ret (HOUND_INTR, ctx, w)
      else if decide (errno = EIO) then
        Ret (HOUND_IO_ERROR, ctx,
             hound_log_err errno "read returned EIO on fd %d" w)
      else Aborted "XASSERT_ERROR" w
  | ReadBytes bytes =>
      let bytes := take POLL_BUF_SIZE bytes in
      let bytes_total := length bytes in
      let w := set_read_buf (λ b, bytes ++ drop bytes_total b) w in
      parse_loop (S bytes_total) ctx 0 bytes_total w
  end.



(** ** Vocabulary for stating what [io_read] does *)

(** The fd context and the world right after a parse call returned. *)
Definition after_call (ctx : fdctx) (d : driver) : fdctx :=
  mk_fdctx d (next_seqno ctx) (queues ctx).

Definition call_made (ctx : fdctx) (pos bytes_left : nat) (w : world)
    : parse_call :=
  let buf := take bytes_left (drop pos (w_read_buf w)) in
  let '(d, reply) := drv_op_parse (drv ctx) buf HOUND_DRIVER_MAX_RECORDS in
  mk_call (id d) pos buf HOUND_DRIVER_MAX_RECORDS (pr_err reply)
          (pr_bytes reply) (pr_records reply).

Definition call_logged (ctx : fdctx) (pos bytes_left : nat) (w : world)
    : world :=
  set_calls (λ l, l ++ [call_made ctx pos bytes_left w]) w.

Implicit Types (ctx : fdctx) (w : world) (d : driver).
Implicit Types (r : outcome (Z * fdctx * world)).

(** ** What one batch of records amounts to

    The functions below say in closed form what [publish_all] does, so
    that the loops of [io_read] can be reasoned about by rewriting. *)

(** The records of a batch whose wrapper could be allocated, given the fate
    of the coming allocations. *)
Fixpoint delivered (plan : list bool) (records : list hound_record)
    {struct records} : list hound_record :=
  match records with
  | [] => []
  | rec :: rest =>
      match plan with
      | [] => records
      | true :: plan => rec :: delivered plan rest
      | false :: plan => delivered plan rest
      end
  end.

(** The wrappers made for delivered records, from sequence number [s] on. *)
Fixpoint stamped (s dev : Z) (nqueues : nat) (records : list hound_record)
    : list record_info :=
  match records with
  | [] => []
  | rec :: records =>
      mk_rec_info
        (mk_record s (data_id rec) dev (timestamp rec) (size rec) (data rec))
        nqueues
      :: stamped (wrap64 (s + 1)) dev nqueues records
  end.

(** The sequence counter after [n] increments. *)
Definition advance (s : Z) (n : nat) : Z :=
  Nat.iter n (λ s, wrap64 (s + 1)) s.

(** The pushes of [n] wrappers at addresses [base], [base + 1], ...: each
    wrapper goes to every queue, in the order of the vector. *)
Definition fan (qs : list queue) (base n : nat) : list (queue * nat) :=
  concat (map (λ p, map (λ q, (q, p)) qs) (seq base n)).

Definition oom_line : Z * string :=
  (HOUND_OOM,
   "Failed to malloc a rec_info; can't add record to user queue"%string).

(** The format strings of the two log lines of a failed parse call: the
    one of [io_read] and the one of [io_poll]. *)
Definition parse_failed_line : string :=
  "Driver failed to parse records (size = %zu, drv = 0x%p)".
Definition grab_failed_line : string :=
  "Failed to grab record from fd %d".

(** The world a run ended in, by return or by a failed assertion. *)
Definition run_world r : option world :=
  match r with
  | Ret (_, _, w) => Some w
  | Aborted _ w => Some w
  | OutOfFuel => None
  end.

(** [w'] is [w] after the fd of [ctx] made the parse calls [calls] and
    published the records [kept]: the wrappers carry consecutive counter
    values from [next_seqno ctx] on and the reference count
    [length (queues ctx)], and each was pushed to every queue. *)
Record published ctx w w' (calls : list parse_call)
    (kept : list hound_record) : Prop := mk_published {
  pub_calls : w_calls w' = w_calls w ++ calls;
  pub_kept : sublist kept (concat (pc_records <$> calls));
  pub_infos :
    w_rec_infos w'
    = w_rec_infos w
        ++ (Some <$> stamped (next_seqno ctx) (id (drv ctx))
                             (length (queues ctx)) kept);
  pub_pushes :
    w_pushes w'
    = w_pushes w ++ fan (queues ctx) (length (w_rec_infos w)) (length kept);
  pub_capacity :
    Forall (λ c, pc_capacity c = HOUND_DRIVER_MAX_RECORDS) calls;
  pub_log : ∃ lines, w_log w' = w_log w ++ lines;
  pub_read_buf : w_read_buf w' = w_read_buf w;
  pub_reads : w_reads w' = w_reads w;
  pub_barrier : w_barrier w' = w_barrier w;
}.

(** The same for a whole run: a returned context has the counter moved by
    the number of published records and the same queues and device. *)
Definition run_published ctx w r : Prop :=
  ∃ w' calls kept,
    run_world r = Some w' ∧ published ctx w w' calls kept ∧
    ∀ err ctx' w'', r = Ret (err, ctx', w'') →
      next_seqno ctx' = advance (next_seqno ctx) (length kept) ∧
      queues ctx' = queues ctx ∧ id (drv ctx') = id (drv ctx).

(** The world once [read] has returned: the fd is noted and the bytes
    read, if any, sit at the start of [s_read_buf]. *)
Definition after_read (fd : Z) (rd : read_result) w : world :=
  set_read_buf
    (λ b, match rd with
          | ReadBytes bytes =>
              take POLL_BUF_SIZE bytes
                ++ drop (length (take POLL_BUF_SIZE bytes)) b
          | ReadError _ => b
          end)
    (set_reads (λ l, l ++ [fd]) w).


(** ** The call discipline of a read cycle

    [parse_cycle data pos n calls e]: with [n] bytes left at offset [pos]
    of the bytes [data] just read, the core makes the calls [calls] and
    the cycle ends in [e]. *)
Inductive cycle_end :=
| AllConsumed              (* nothing is left *)
| Stalled (left : nat)     (* byte count unchanged: [left] bytes dropped *)
| ParseFailed (err : Z)
| Asserted.                (* the driver broke the contract; see [Aborted] *)

(** The call [c] was made at offset [pos] on the [n] bytes found there. *)
Definition offered (data : list byte) (pos n : nat) (c : parse_call)
    : Prop :=
  pc_pos c = pos ∧ pc_buf c = take n (drop pos data) ∧
  length (pc_buf c) = n.

Inductive parse_cycle (data : list byte)
    : nat → nat → list parse_call → cycle_end → Prop :=
| cycle_consumed pos :
    parse_cycle data pos 0 [] AllConsumed
| cycle_failed pos n c :
    n ≠ 0%nat → offered data pos n c → pc_err c ≠ HOUND_OK →
    parse_cycle data pos n [c] (ParseFailed (pc_err c))
| cycle_stalled pos n c :
    n ≠ 0%nat → offered data pos n c → pc_err c = HOUND_OK →
    pc_left c = n →
    parse_cycle data pos n [c] (Stalled n)
| cycle_grew pos n c :
    n ≠ 0%nat → offered data pos n c → pc_err c = HOUND_OK →
    (n < pc_left c)%nat →
    parse_cycle data pos n [c] Asserted
| cycle_no_record pos n c :
    n ≠ 0%nat → offered data pos n c → pc_err c = HOUND_OK →
    (pc_left c < n)%nat → pc_records c = [] →
    parse_cycle data pos n [c] Asserted
| cycle_again pos n c calls e :
    n ≠ 0%nat → offered data pos n c → pc_err c = HOUND_OK →
    (pc_left c < n)%nat → pc_records c ≠ [] →
    parse_cycle data (pos + (n - pc_left c)) (pc_left c) calls e →
    parse_cycle data pos n (c :: calls) e.

(** How the result of [io_read] shows the end of the cycle. *)
Definition ends_as (r : outcome (Z * fdctx * world)) (e : cycle_end)
    : Prop :=
  match e, r with
  | AllConsumed, Ret (err, _, _) => err = HOUND_OK
  | Stalled _, Ret (err, _, _) => err = HOUND_OK
  | ParseFailed e, Ret (err, _, w) =>
      err = e ∧ e ≠ HOUND_OK ∧
      ∃ l, w_log w = l ++ [(e, parse_failed_line)]
  | Asserted, Aborted _ _ => True
  | _, _ => False
  end.

(** ** The statics of [io.c] *)

(** [struct pollfd] *)
Record pollfd := mk_pollfd {
  pfd_fd : Z;
  pfd_events : Z;
  pfd_revents : Z;
}.

(** [s_ios] and the two flags of the pause barrier. *)
Record statics := mk_statics {
  s_ctx : list fdctx;               (* s_ios.ctx *)
  s_fds : list pollfd;              (* s_ios.fds *)
  s_poll_active_target : bool;
  s_poll_active_current : bool;
}.

Definition set_ctx (v : list fdctx) (s : statics) : statics :=
  mk_statics v (s_fds s) (s_poll_active_target s) (s_poll_active_current s).
Definition set_fds (v : list pollfd) (s : statics) : statics :=
  mk_statics (s_ctx s) v (s_poll_active_target s) (s_poll_active_current s).

(** ** xlib vectors and [RM_VEC_INDEX]

    [xlib/xvec.h] and [hound-private/util.h] are not among the sources.
    A vector is the list of its elements. Two things the callers do not
    show are left open: what remains of a vector when a push cannot grow
    it ([xv_oom]), and which element takes the freed slot when
    [RM_VEC_INDEX] removes one. *)
Variable xv_oom : ∀ A : Type, list A → list A.
Variable RM_VEC_INDEX : ∀ A : Type, nat → list A → list A.

(** [xv_push] / [xv_pushp]: whether it worked (for [xv_pushp], the slot
    pointer is not NULL; for [xv_push], [xv_data] is not NULL afterwards),
    and the vector. *)
Definition xv_push {A : Type} (x : A) (v : list A) (w : world)
    : bool * list A * world :=
  let '(ok, w) := next_alloc w in
  if ok then (true, v ++ [x], w) else (false, xv_oom A v, w).

Definition xv_pop {A : Type} (v : list A) : list A := removelast v.

(** ** The pause barrier *)

(** [io_wait_for_ready], on the I/O thread: it gets through when polling
    is wanted and there is an fd, and otherwise stays in the wait with
    [s_poll_active_current] cleared. *)
Definition io_wait_for_ready (s : statics) : option statics :=
  if s_poll_active_target s && negb (bool_decide (length (s_fds s) = 0%nat))
  then Some (mk_statics (s_ctx s) (s_fds s) (s_poll_active_target s) true)
  else None.

(** [io_pause_poll], seen from the caller: the signal is sent and, while
    the I/O thread is active, the target is cleared until the thread has
    reached [io_wait_for_ready] and cleared [s_poll_active_current]. *)
Definition io_pause_poll (s : statics) (w : world) : statics * world :=
  let w := set_barrier (λ l, l ++ [Pause]) w in
  if s_poll_active_current s
  then (mk_statics (s_ctx s) (s_fds s) false false, w)
  else (s, w).

Definition io_resume_poll (s : statics) (w : world) : statics * world :=
  (mk_statics (s_ctx s) (s_fds s) true (s_poll_active_current s),
   set_barrier (λ l, l ++ [Resume]) w).

(** ** Mutators *)

Definition get_fd_index (fd : Z) (s : statics) : option nat :=
  fst <$> list_find (λ pfd, pfd_fd pfd = fd) (s_fds s).

(** [io_add_fd]; [flags] and [setfl] are what the two [fcntl] calls
    returned. The [revents] of the new slot are not written by the code;
    they are 0 here and [ppoll] sets them before they are read. *)
Definition io_add_fd (fd : Z) (d : driver) (flags setfl : Z) (s : statics)
    (w : world) : outcome (Z * statics * world) :=
  if decide (fd = 0) then Aborted "XASSERT_NEQ(fd, 0)" w else
  if decide (flags = -1) then Aborted "XASSERT_NEQ(flags, -1)" w else
  if decide (setfl = -1) then Aborted "XASSERT_NEQ(err, -1)" w else
  let '(s, w) := io_pause_poll s w in
  let '(ok, fds, w) := xv_push (mk_pollfd fd POLL_HAS_DATA 0) (s_fds s) w in
  let s := set_fds fds s in
  if negb ok then
    (* error_xv_push *)
    let '(s, w) := io_resume_poll s w in Ret (HOUND_OOM, s, w)
  else
  let '(ok, w) := next_alloc w in       (* ctx = malloc(sizeof( *ctx)) *)
  if negb ok then
    (* error_ctx_alloc *)
    let s := set_fds (xv_pop (s_fds s)) s in
    let '(s, w) := io_resume_poll s w in Ret (HOUND_OOM, s, w)
  else
  let ctx := mk_fdctx d 0 [] in
  let '(ok, ctxs, w) := xv_push ctx (s_ctx s) w in
  let s := set_ctx ctxs s in
  if negb ok then
    (* error_ctx_push: free(ctx), then on to error_ctx_alloc *)
    let s := set_fds (xv_pop (s_fds s)) s in
    let '(s, w) := io_resume_poll s w in Ret (HOUND_OOM, s, w)
  else
  let '(s, w) := io_resume_poll s w in Ret (HOUND_OK, s, w).

Definition io_remove_fd (fd : Z) (s : statics) (w : world)
    : outcome (statics * world) :=
  match get_fd_index fd s with
  | None => Aborted "XASSERT_NEQ(index, xv_size(s_ios.fds))" w
  | Some index =>
      let '(s, w) := io_pause_poll s w in
      let s := set_fds (RM_VEC_INDEX _ index (s_fds s)) s in
      let s := set_ctx (RM_VEC_INDEX _ index (s_ctx s)) s in
      let '(s, w) := io_resume_poll s w in
      Ret (s, w)
  end.

(** The statement of [io_add_queue] between pause and resume:
    [xv_push(struct queue *, ctx->queues, queue)]. *)
Definition attach_queue (q : queue) (ctx : fdctx) (w : world)
    : bool * fdctx * world :=
  let '(ok, qs, w) := xv_push q (queues ctx) w in
  (ok, mk_fdctx (drv ctx) (next_seqno ctx) qs, w).

(** The statements of [io_remove_queue] between pause and resume: find the
    queue, assert that it is there, remove it. *)
Definition detach_queue (q : queue) (ctx : fdctx) : option fdctx :=
  match list_find (λ q', q' = q) (queues ctx) with
  | None => None
  | Some (index, _) =>
      Some (mk_fdctx (drv ctx) (next_seqno ctx)
                     (RM_VEC_INDEX _ index (queues ctx)))
  end.

(** [get_fdctx]: [xv_A(s_ios.ctx, get_fd_index(fd))]; the vectors are
    index-aligned, a missing context is counted as a failed
    [XASSERT_NOT_NULL(ctx)]. *)
Definition io_add_queue (fd : Z) (q : queue) (s : statics) (w : world)
    : outcome (Z * statics * world) :=
  match get_fd_index fd s with
  | None => Aborted "XASSERT_NEQ(index, xv_size(s_ios.fds))" w
  | Some index =>
      match s_ctx s !! index with
      | None => Aborted "XASSERT_NOT_NULL(ctx)" w
      | Some ctx =>
          let '(s, w) := io_pause_poll s w in
          let '(ok, ctx, w) := attach_queue q ctx w in
          let s := set_ctx (<[index := ctx]> (s_ctx s)) s in
          if negb ok then
            (* Push failed to reallocate the queue. *)
            Ret (HOUND_OOM, s, w)
          else
            let '(s, w) := io_resume_poll s w in
            Ret (HOUND_OK, s, w)
      end
  end.

Definition io_remove_queue (fd : Z) (q : queue) (s : statics) (w : world)
    : outcome (statics * world) :=
  match get_fd_index fd s with
  | None => Aborted "XASSERT_NEQ(index, xv_size(s_ios.fds))" w
  | Some index =>
      match s_ctx s !! index with
      | None => Aborted "XASSERT_NOT_NULL(ctx)" w
      | Some ctx =>
          let '(s, w) := io_pause_poll s w in
          match detach_queue q ctx with
          | None => Aborted "XASSERT_NEQ(index, xv_size(ctx->queues))" w
          | Some ctx =>
              let s := set_ctx (<[index := ctx]> (s_ctx s)) s in
              let '(s, w) := io_resume_poll s w in
              Ret (s, w)
          end
      end
  end.

(** ** [io_poll] *)

(** What [ppoll] did: it failed with an [errno], or it stored the given
    [revents] (0 where the list is short) and returned the number of
    entries with a nonzero one. *)
Inductive ppoll_result :=
| PollFailed (errno : Z)
| PollEvents (revents : list Z).

Fixpoint set_revents (fds : list pollfd) (revents : list Z) : list pollfd :=
  match fds with
  | [] => []
  | pfd :: fds =>
      mk_pollfd (pfd_fd pfd) (pfd_events pfd) (hd 0 revents)
      :: set_revents fds (tl revents)
  end.

Definition ppoll (res : ppoll_result) (fds : list pollfd)
    : Z * list pollfd :=
  match res with
  | PollFailed _ => (-1, fds)
  | PollEvents revents =>
      let fds := set_revents fds revents in
      (Z.of_nat (length (filter (λ pfd, pfd_revents pfd ≠ 0) fds)), fds)
  end.

(** [for (i = 0; fds > 0 && i < xv_size(s_ios.fds); ++i)], from index [i]
    on; [pfds] are the entries of [s_ios.fds] from there. [reads] tells
    what [read] returns on each fd in this cycle. The two vectors are
    index-aligned; an fd without a context would make [xv_A] read past
    the end of [s_ios.ctx], which is counted as a stop of the process. *)
Fixpoint io_poll_scan (reads : Z → read_result) (pfds : list pollfd)
    (i : nat) (fds : Z) (ctxs : list fdctx) (w : world)
    : outcome (list fdctx * world) :=
  match pfds with
  | [] => Ret (ctxs, w)
  | pfd :: pfds =>
      if decide (fds ≤ 0) then Ret (ctxs, w) else
      if decide (pfd_revents pfd = 0) then
        io_poll_scan reads pfds (S i) fds ctxs w
      else if decide (Z.land (pfd_revents pfd) POLL_HAS_DATA = 0) then
        Aborted "XASSERT(pfd->revents & POLL_HAS_DATA)" w
      else
        match ctxs !! i with
        | None => Aborted "xv_A(s_ios.ctx, i)" w
        | Some ctx =>
            match io_read (pfd_fd pfd) ctx (reads (pfd_fd pfd)) w with
            | Ret (err, ctx, w) =>
                let ctxs := <[i := ctx]> ctxs in
                if decide (err = HOUND_INTR) then
                  (* Someone wants to pause polling; finish reading later. *)
                  Ret (ctxs, w)
                else
                  let fds := fds - 1 in
                  let w :=
                    if decide (err ≠ HOUND_OK)
                    then hound_log_err err
                           "Failed to grab record from fd %d" w
                    else w in
                  io_poll_scan reads pfds (S i) fds ctxs w
            | Aborted a w => Aborted a w
            | OutOfFuel => OutOfFuel
            end
        end
  end.

(** What the code does with the return value of [ppoll] before the
    assertion on it. *)
Inductive poll_check :=
| PollContinue            (* [continue] *)
| PollGoOn (w : world)    (* on to [XASSERT_GT (fds, 0)] *)
| PollBug.                (* [XASSERT_ERROR] *)

(** One turn of [while (true)] in [io_poll], after [io_wait_for_ready] let
    the thread through. [Ret] is the thread back at the top of the loop. *)
Definition io_poll_turn (res : ppoll_result) (reads : Z → read_result)
    (s : statics) (w : world) : outcome (statics * world) :=
  let '(fds, pfds) := ppoll res (s_fds s) in
  let s := set_fds pfds s in
  let errno := match res with PollFailed errno => errno | _ => 0 end in
  let check :=
    if decide (fds = -1) then
      if decide (errno = EINTR) then
        (* We got a signal; probably need to pause the loop. *)
        PollContinue
      else if decide (errno = ENOMEM) then
        PollGoOn (hound_log_err errno "poll failed with ENOMEM" w)
      else if decide (errno = EIO) then
        PollGoOn (hound_log_err errno "poll failed with EIO" w)
      else
        (* Other error codes are likely program bugs. *)
        PollBug
    else PollGoOn w in
  match check with
  | PollContinue => Ret (s, w)
  | PollBug => Aborted "XASSERT_ERROR" w
  | PollGoOn w =>
      if decide (fds ≤ 0) then Aborted "XASSERT_GT (fds, 0)" w else
      match io_poll_scan reads pfds 0 fds (s_ctx s) w with
      | Ret (ctxs, w) => Ret (set_ctx ctxs s, w)
      | Aborted a w => Aborted a w
      | OutOfFuel => OutOfFuel
      end
  end.

(** ** The life of one fd

    What happens to one fd context between [io_add_fd] and
    [io_remove_fd]: the I/O thread reads it, queues are attached and
    detached. *)
Inductive fd_event :=
| Readable (rd : read_result)
| Attach (q : queue)
| Detach (q : queue).

Fixpoint fd_session (fd : Z) (evs : list fd_event) (ctx : fdctx) (w : world)
    : outcome (fdctx * world) :=
  match evs with
  | [] => Ret (ctx, w)
  | Readable rd :: evs =>
      match io_read fd ctx rd w with
      | Ret (_, ctx, w) => fd_session fd evs ctx w
      | Aborted a w => Aborted a w
      | OutOfFuel => OutOfFuel
      end
  | Attach q :: evs =>
      let '(_, ctx, w) := attach_queue q ctx w in
      fd_session fd evs ctx w
  | Detach q :: evs =>
      match detach_queue q ctx with
      | Some ctx => fd_session fd evs ctx w
      | None => Aborted "XASSERT_NEQ(index, xv_size(ctx->queues))" w
      end
  end.


End Drivers.
Arguments driver : clear implicits.
Arguments fdctx : clear implicits.
Arguments statics : clear implicits.

(** * [schema.c]

    The parser works on documents that libyaml has loaded; the model
    starts from their root nodes. Memory is a list of blocks, a pointer is
    an index into it, and freeing a block leaves a [Freed] mark, so that
    what a failed parse leaves behind can be read off the heap. *)
Module Schema.

(** [yaml_node_t] *)
#[local] Unset Elimination Schemes.
Inductive yaml_node :=
| YScalar (value : string)
| YSequence (items : list yaml_node)
| YMapping (pairs : list (yaml_node * yaml_node)).
#[local] Set Elimination Schemes.

(** A pointer: NULL, a block, or the content of memory nobody wrote. *)
Inductive ptr := NULL | Addr (a : nat) | Wild.

#[global] Instance ptr_eq_dec : EqDecision ptr.
Proof. solve_decision. Defined.

(** The units [find_unit] knows. *)
Inductive hound_unit :=
| HOUND_UNIT_DEGREE | HOUND_UNIT_KELVIN | HOUND_UNIT_KG_PER_S
| HOUND_UNIT_LATITUDE | HOUND_UNIT_LONGITUDE | HOUND_UNIT_METER
| HOUND_UNIT_METERS_PER_S | HOUND_UNIT_METERS_PER_S_SQUARED
| HOUND_UNIT_NONE | HOUND_UNIT_PASCAL | HOUND_UNIT_PERCENT
| HOUND_UNIT_RAD | HOUND_UNIT_RAD_PER_S | HOUND_UNIT_NANOSECOND.

(** [struct hound_data_fmt]; a scalar field nobody wrote is [None]. *)
Record hound_data_fmt := mk_fmt {
  fmt_name : ptr;
  fmt_unit : option hound_unit;
  fmt_offset : option Z;
  fmt_size : option Z;
  fmt_type : option Z;
}.

(** [struct schema_desc] *)
Record schema_desc := mk_desc {
  sd_data_id : option Z;
  sd_name : ptr;
  sd_fmt_count : nat;
  sd_fmts : ptr;
}.

Inductive block :=
| Chars (s : string)                   (* a [strdup]ed string *)
| Fmts (cells : list hound_data_fmt)   (* an array of formats *)
| Descs (cells : list schema_desc)     (* an array of descriptors *)
| Freed.

Record heap := mk_heap {
  h_blocks : list block;
  h_alloc : list bool;     (* fate of the next allocations *)
}.

(** A call returns, or the process stops: a failed [XASSERT_*] or an
    invalid memory access. *)
Inductive result (A : Type) :=
| Done (a : A)
| Stopped (why : string) (h : heap).
Arguments Done {A} a.
Arguments Stopped {A} why h.

Definition next_alloc (h : heap) : bool * heap :=
  match h_alloc h with
  | [] => (true, h)
  | ok :: plan => (ok, mk_heap (h_blocks h) plan)
  end.

(** [malloc], [strdup], [drv_strdup]: a new block with the given content,
    or NULL. *)
Definition malloc (b : block) (h : heap) : ptr * heap :=
  let '(ok, h) := next_alloc h in
  if ok
  then (Addr (length (h_blocks h)), mk_heap (h_blocks h ++ [b]) (h_alloc h))
  else (NULL, h).

Definition free (p : ptr) (h : heap) : result heap :=
  match p with
  | NULL => Done h
  | Wild => Stopped "free of a pointer that was never set" h
  | Addr a =>
      match h_blocks h !! a with
      | None | Some Freed => Stopped "free of a block that is not live" h
      | Some _ => Done (mk_heap (<[a := Freed]> (h_blocks h)) (h_alloc h))
      end
  end.

(** The blocks still allocated. *)
Definition is_live (b : block) : bool :=
  match b with Freed => false | _ => true end.

Definition live (h : heap) : list nat :=
  (filter (λ x, is_live x.2 = true) (imap (λ a b, (a, b)) (h_blocks h))).*1.

Definition MAX_FMT_ENTRIES : nat := 100.

Definition unit_strs : list (hound_unit * string) :=
  [ (HOUND_UNIT_DEGREE, "degree"); (HOUND_UNIT_KELVIN, "K");
    (HOUND_UNIT_KG_PER_S, "kg/s"); (HOUND_UNIT_LATITUDE, "lat");
    (HOUND_UNIT_LONGITUDE, "lng"); (HOUND_UNIT_METER, "m");
    (HOUND_UNIT_METERS_PER_S, "m/s");
    (HOUND_UNIT_METERS_PER_S_SQUARED, "m/s^2");
    (HOUND_UNIT_NONE, "none"); (HOUND_UNIT_PASCAL, "Pa");
    (HOUND_UNIT_PERCENT, "percent"); (HOUND_UNIT_RAD, "rad");
    (HOUND_UNIT_RAD_PER_S, "rad/s"); (HOUND_UNIT_NANOSECOND, "ns") ]%string.

(** [find_unit]; [None] is the [XASSERT_ERROR] at its end. *)
Definition find_unit (val : string) : option hound_unit :=
  (λ x, x.2.1) <$> list_find (λ x, x.2 = val) unit_strs.

Section Parse.

(** [xlib/xvec.h] is not among the sources: what is left of a vector
    after a push that could not grow it is left open. *)
Variable xv_oom : ∀ A : Type, list A → list A.

(** [parse_type] ([parse/common.c]) is not among the sources, and
    [parse_num] is [strtoul] with two assertions; neither allocates.
    [None] is a failed assertion. *)
Variable parse_type : string → option Z.
Variable parse_num : string → option Z.

(** [destroy_desc_fmts]: [fmts[i]] is read for every [i < count]. *)
Fixpoint free_names (cells : list hound_data_fmt) (h : heap) : result heap :=
  match cells with
  | [] => Done h
  | c :: cells =>
      match free (fmt_name c) h with
      | Done h => free_names cells h
      | Stopped why h => Stopped why h
      end
  end.

Definition destroy_desc_fmts (count : nat) (fmts : ptr) (h : heap)
    : result heap :=
  if decide (count = 0%nat) then free fmts h else
  match fmts with
  | NULL => Stopped "fmts[i].name read through a NULL fmts" h
  | Wild => Stopped "fmts[i].name read through a pointer never set" h
  | Addr a =>
      match h_blocks h !! a with
      | Some (Fmts cells) =>
          if decide (count ≤ length cells)%nat then
            match free_names (take count cells) h with
            | Done h => free fmts h
            | Stopped why h => Stopped why h
            end
          else Stopped "fmts[i].name read past the end of fmts" h
      | _ => Stopped "fmts[i].name read from a block that is no array" h
      end
  end.

Definition destroy_schema_desc (desc : schema_desc) (h : heap)
    : result heap :=
  match free (sd_name desc) h with
  | Done h => destroy_desc_fmts (sd_fmt_count desc) (sd_fmts desc) h
  | Stopped why h => Stopped why h
  end.

(** [parse_str] *)
Definition parse_str (node : yaml_node) (h : heap) : result (ptr * heap) :=
  match node with
  | YScalar value =>
      if decide (value = ""%string)
      then Stopped "XASSERT_GT(node->data.scalar.length, 0)" h
      else Done (malloc (Chars value) h)
  | _ => Stopped "XASSERT_EQ(node->type, YAML_SCALAR_NODE)" h
  end.

(** The loop of [parse_fmt] over the pairs of the mapping; [fmt] is the
    array cell being filled, returned as the code left it. *)
Fixpoint parse_fmt_pairs (pairs : list (yaml_node * yaml_node))
    (fmt : hound_data_fmt) (h : heap)
    : result (Z * hound_data_fmt * heap) :=
  match pairs with
  | [] => Done (HOUND_OK, fmt, h)
  | (key, value) :: pairs =>
      match key, value with
      | YScalar key_str, YScalar value_str =>
          if decide (value_str = ""%string)
          then Stopped "XASSERT_GT(value->data.scalar.length, 0)" h
          else if decide (key_str = "name"%string) then
            match parse_str value h with
            | Stopped why h => Stopped why h
            | Done (name, h) =>
                let fmt := mk_fmt name (fmt_unit fmt) (fmt_offset fmt)
                                  (fmt_size fmt) (fmt_type fmt) in
                if decide (name = NULL) then Done (HOUND_OOM, fmt, h)
                else parse_fmt_pairs pairs fmt h
            end
          else if decide (key_str = "unit"%string) then
            match find_unit value_str with
            | None => Stopped "XASSERT_ERROR" h
            | Some u =>
                parse_fmt_pairs pairs
                  (mk_fmt (fmt_name fmt) (Some u) (fmt_offset fmt)
                          (fmt_size fmt) (fmt_type fmt)) h
            end
          else if decide (key_str = "type"%string) then
            match parse_type value_str with
            | None => Stopped "parse_type" h
            | Some t =>
                parse_fmt_pairs pairs
                  (mk_fmt (fmt_name fmt) (fmt_unit fmt) (fmt_offset fmt)
                          (fmt_size fmt) (Some t)) h
            end
          else if decide (key_str = "size"%string) then
            match parse_num value_str with
            | None => Stopped "parse_num" h
            | Some n =>
                parse_fmt_pairs pairs
                  (mk_fmt (fmt_name fmt) (fmt_unit fmt) (fmt_offset fmt)
                          (Some n) (fmt_type fmt)) h
            end
          else Stopped "XASSERT_ERROR" h
      | YScalar _, _ => Stopped "XASSERT_EQ(value->type, YAML_SCALAR_NODE)" h
      | _, _ => Stopped "XASSERT_EQ(key->type, YAML_SCALAR_NODE)" h
      end
  end.

Definition parse_fmt (node : yaml_node) (fmt : hound_data_fmt) (h : heap)
    : result (Z * hound_data_fmt * heap) :=
  match node with
  | YMapping pairs => parse_fmt_pairs pairs fmt h
  | _ => Stopped "XASSERT_EQ(node->type, YAML_MAPPING_NODE)" h
  end.

(** [fmts[i]] for writing: the cell of the array block. *)
Definition write_cell (a i : nat) (fmt : hound_data_fmt) (h : heap) : heap :=
  match h_blocks h !! a with
  | Some (Fmts cells) =>
      mk_heap (<[a := Fmts (<[i := fmt]> cells)]> (h_blocks h)) (h_alloc h)
  | _ => h
  end.

(** The loop of [parse_fmts] from item [i] on. It returns the error and
    the value left in [*out_count]; [*out_fmts] is written by the caller
    of the loop, after it, and only on success. *)
Fixpoint parse_fmts_items (items : list yaml_node) (a i : nat) (h : heap)
    : result (Z * nat * heap) :=
  match items with
  | [] => Done (HOUND_OK, i, h)
  | item :: items =>
      match parse_fmt item (mk_fmt Wild None None None None) h with
      | Stopped why h => Stopped why h
      | Done (err, fmt, h) =>
          let h := write_cell a i fmt h in
          if decide (err ≠ HOUND_OK) then Done (err, i, h)
          else parse_fmts_items items a (S i) h
      end
  end.

(** [parse_fmts]: the error and the descriptor with [fmt_count] and [fmts]
    as the call left them. *)
Definition parse_fmts (node : yaml_node) (desc : schema_desc) (h : heap)
    : result (Z * schema_desc * heap) :=
  match node with
  | YSequence items =>
      let fmt_count := length items in
      if decide (fmt_count < 1)%nat
      then Stopped "XASSERT_GTE(fmt_count, 1)" h
      else if decide (MAX_FMT_ENTRIES < fmt_count)%nat
      then Stopped "XASSERT_LTE(fmt_count, MAX_FMT_ENTRIES)" h
      else
        match malloc (Fmts (replicate fmt_count
                              (mk_fmt Wild None None None None))) h with
        | (Addr a, h) =>
            match parse_fmts_items items a 0 h with
            | Stopped why h => Stopped why h
            | Done (err, count, h) =>
                if decide (err ≠ HOUND_OK) then
                  (* *out_count = i; return err; *)
                  Done (err,
                        mk_desc (sd_data_id desc) (sd_name desc) count
                                (sd_fmts desc), h)
                else
                  (* *out_count = fmt_count; *out_fmts = fmts; *)
                  Done (HOUND_OK,
                        mk_desc (sd_data_id desc) (sd_name desc) fmt_count
                                (Addr a), h)
            end
        | (_, h) => Done (HOUND_OOM, desc, h)
        end
  | _ => Stopped "XASSERT_EQ(node->type, YAML_SEQUENCE_NODE)" h
  end.

(** The loop of [parse_doc] over the pairs of the document. *)
Fixpoint parse_doc_pairs (pairs : list (yaml_node * yaml_node))
    (desc : schema_desc) (h : heap) : result (Z * schema_desc * heap) :=
  match pairs with
  | [] => Done (HOUND_OK, desc, h)
  | (key, value) :: pairs =>
      match key with
      | YScalar key_str =>
          if decide (key_str = "id"%string) then
            match value with
            | YScalar value_str =>
                if decide (value_str = ""%string)
                then Stopped "XASSERT_GT(value->data.scalar.length, 0)" h
                else
                  match parse_num value_str with
                  | None => Stopped "parse_num" h
                  | Some n =>
                      parse_doc_pairs pairs
                        (mk_desc (Some n) (sd_name desc) (sd_fmt_count desc)
                                 (sd_fmts desc)) h
                  end
            | _ => Stopped "XASSERT_EQ(value->type, YAML_SCALAR_NODE)" h
            end
          else if decide (key_str = "name"%string) then
            match value with
            | YScalar value_str =>
                let '(name, h) := malloc (Chars value_str) h in
                let desc := mk_desc (sd_data_id desc) name
                                    (sd_fmt_count desc) (sd_fmts desc) in
                if decide (name = NULL) then Done (HOUND_OOM, desc, h)
                else parse_doc_pairs pairs desc h
            | _ => Stopped "XASSERT_EQ(value->type, YAML_SCALAR_NODE)" h
            end
          else if decide (key_str = "fmt"%string) then
            match parse_fmts value desc h with
            | Stopped why h => Stopped why h
            | Done (err, desc, h) =>
                if decide (err ≠ HOUND_OK) then Done (err, desc, h)
                else parse_doc_pairs pairs desc h
            end
          else Stopped "XASSERT_ERROR" h
      | _ => Stopped "XASSERT_EQ(key->type, YAML_SCALAR_NODE)" h
      end
  end.

Definition parse_doc (node : yaml_node) (desc : schema_desc) (h : heap)
    : result (Z * schema_desc * heap) :=
  match node with
  | YMapping pairs => parse_doc_pairs pairs desc h
  | _ => Stopped "XASSERT_EQ(node->type, YAML_MAPPING_NODE)" h
  end.

(** [while (true)] of [parse]: one document per turn until the stream
    ends; the error and the vector [descs]. *)
Fixpoint parse_stream (docs : list yaml_node) (descs : list schema_desc)
    (h : heap) : result (Z * list schema_desc * heap) :=
  match docs with
  | [] => Done (HOUND_OK, descs, h)         (* End of stream. *)
  | node :: docs =>
      let '(ok, h) := next_alloc h in       (* xv_pushp *)
      if negb ok then Done (HOUND_OOM, xv_oom _ descs, h) else
      (* NULL this out so that if we fail, we can call drv_free on
         members. *)
      match parse_doc node (mk_desc None NULL 0 NULL) h with
      | Stopped why h => Stopped why h
      | Done (err, desc, h) =>
          let descs := descs ++ [desc] in
          if decide (err ≠ HOUND_OK) then Done (err, descs, h)
          else parse_stream docs descs h
      end
  end.

Fixpoint destroy_all (descs : list schema_desc) (h : heap) : result heap :=
  match descs with
  | [] => Done h
  | desc :: descs =>
      match destroy_schema_desc desc h with
      | Done h => destroy_all descs h
      | Stopped why h => Stopped why h
      end
  end.

(** [parse]: the error, [*out_descs] and [*out_desc_count] ([Wild] and
    [None] when the call did not write them), and the heap. *)
Definition parse (docs : list yaml_node) (h : heap)
    : result (Z * ptr * option nat * heap) :=
  let '(ok, h) := next_alloc h in           (* yaml_parser_initialize *)
  if negb ok then Done (HOUND_OOM, Wild, None, h) else
  match parse_stream docs [] h with
  | Stopped why h => Stopped why h
  | Done (err, descs, h) =>
      let '(err, out_descs, out_desc_count, h) :=
        if decide (err = HOUND_OK) then
          match malloc (Descs descs) h with
          | (Addr a, h) => (HOUND_OK, Addr a, Some (length descs), h)
          | (_, h) => (HOUND_OOM, NULL, None, h)
          end
        else (err, Wild, None, h) in
      if decide (err ≠ HOUND_OK) then
        match destroy_all descs h with
        | Done h => Done (err, out_descs, out_desc_count, h)
        | Stopped why h => Stopped why h
        end
      else Done (err, out_descs, out_desc_count, h)
  end.

End Parse.

End Schema.

(** * Statements about the I/O core *)

Section Statements.
Context {drv_priv : Type}.
Implicit Types (ctx : fdctx drv_priv) (w : world).

(** What the driver put into a record; the core adds [seqno] and
    [dev_id]. *)
Definition payload (rec : hound_record) : Z * (Z * Z) * Z * list byte :=
  (data_id rec, timestamp rec, size rec, data rec).

Definition seqnos (wrappers : list record_info) : list Z :=
  (λ ri, seqno (record ri)) <$> wrappers.

(** One parse batch with allocation failures: the records whose wrapper
    could be allocated are all delivered, in order, numbered without a
    gap, and each failure costs one log line and nothing else. *)
Definition batch_skips_failed ctx (records : list hound_record) w : Prop :=
  let fate := w_alloc w ++ replicate (length records) true in
  let kept := (filter (λ x, x.2 = true) (zip records fate)).*1 in
  let '(ctx', w') := publish_all ctx records w in
  ∃ wrappers,
    w_rec_infos w' = w_rec_infos w ++ (Some <$> wrappers) ∧
    (λ ri, payload (record ri)) <$> wrappers = payload <$> kept ∧
    seqnos wrappers
    = (λ k, wrap64 (next_seqno ctx + Z.of_nat k)) <$> seq 0 (length kept) ∧
    next_seqno ctx' = wrap64 (next_seqno ctx + Z.of_nat (length kept)) ∧
    w_log w' = w_log w ++ replicate (length records - length kept) oom_line ∧
    w_pushes w'
    = w_pushes w ++ fan (queues ctx) (length (w_rec_infos w)) (length kept).


(** One [io_read] that got bytes: its parse calls follow [parse_cycle] on
    the bytes just read, whatever the buffer held before. *)
Definition cycle_disciplined (fd : Z) ctx (bytes : list byte) w : Prop :=
  let data := take POLL_BUF_SIZE bytes in
  ∃ w' calls e,
    run_world (io_read fd ctx (ReadBytes bytes) w) = Some w' ∧
    w_calls w' = w_calls w ++ calls ∧
    parse_cycle data 0 (length data) calls e ∧
    ends_as (io_read fd ctx (ReadBytes bytes) w) e.



Section Session.
Variable xv_oom : ∀ A : Type, list A → list A.
Variable RM_VEC_INDEX : ∀ A : Type, nat → list A → list A.


End Session.

End Statements.

(** ** A driver to run the code on

    It reads its buffer two bytes at a time and makes one record of each
    pair; [0xfe] is a filler byte that it skips without a record; at
    [0xff] it fails with the given code; a single last byte it leaves for
    later. Its private state counts the records made. *)
Definition demo_parse (fail_with : Z) (made : nat) (buf : list byte)
    (capacity : nat) : nat * parse_reply :=
  match buf with
  | [] => (made, mk_reply HOUND_OK 0 [])
  | b1 :: rest =>
      if Byte.eqb b1 xff then (made, mk_reply fail_with (length buf) [])
      else if Byte.eqb b1 xfe then (made, mk_reply HOUND_OK (length rest) [])
      else
        match rest with
        | [] => (made, mk_reply HOUND_OK 1 [])
        | b2 :: rest =>
            (S made,
             mk_reply HOUND_OK (length rest)
                      [mk_record 0 7 0 (0, 0) 2 [b1; b2]])
        end
  end.

Definition demo_driver (dev fail_with : Z) : driver nat :=
  mk_driver dev 0%nat (demo_parse fail_with).

Definition empty_world : world := mk_world [] [] [] [] [] [] [] [].

(** The call discipline in the words of the spec (4.5, step 4): the core
    advances by what the driver consumed and calls again until the driver
    consumes nothing or nothing is left; a failed call ends the cycle. *)
Inductive cycle_as_specified (data : list byte)
    : nat → nat → list parse_call → Prop :=
| spec_nothing_left pos :
    cycle_as_specified data pos 0 []
| spec_failed pos n c :
    n ≠ 0%nat → offered data pos n c → pc_err c ≠ HOUND_OK →
    cycle_as_specified data pos n [c]
| spec_unchanged pos n c :
    n ≠ 0%nat → offered data pos n c → pc_err c = HOUND_OK →
    pc_left c = n →
    cycle_as_specified data pos n [c]
| spec_consumed pos n c calls :
    n ≠ 0%nat → offered data pos n c → pc_err c = HOUND_OK →
    (pc_left c < n)%nat →
    cycle_as_specified data (pos + (n - pc_left c)) (pc_left c) calls →
    cycle_as_specified data pos n (c :: calls).

Section TurnStatements.
Context {drv_priv : Type}.




End TurnStatements.

(** ** A schema to run the parser on

    One document with two format entries, as libyaml hands it over:
    [{id: 1, name: accel, fmt: [{name: x, unit: m/s^2, type: float,
    size: 4}, {name: y, unit: m/s^2, type: float, size: 4}]}]. *)
Definition accel_schema : Schema.yaml_node :=
  Schema.YMapping
    [ (Schema.YScalar "id", Schema.YScalar "1");
      (Schema.YScalar "name", Schema.YScalar "accel");
      (Schema.YScalar "fmt",
       Schema.YSequence
         [ Schema.YMapping
             [ (Schema.YScalar "name", Schema.YScalar "x");
               (Schema.YScalar "unit", Schema.YScalar "m/s^2");
               (Schema.YScalar "type", Schema.YScalar "float");
               (Schema.YScalar "size", Schema.YScalar "4") ];
           Schema.YMapping
             [ (Schema.YScalar "name", Schema.YScalar "y");
               (Schema.YScalar "unit", Schema.YScalar "m/s^2");
               (Schema.YScalar "type", Schema.YScalar "float");
               (Schema.YScalar "size", Schema.YScalar "4") ] ]) ]%string.

(** The allocations of [parse] on [accel_schema], in order: the yaml
    parser, the slot in [descs], the name of the descriptor, the array of
    formats, the name of the first format, the name of the second. *)
Definition oom_at_second_fmt_name : list bool :=
  [true; true; true; true; true; false].

Definition oom_at_first_fmt_name : list bool :=
  [true; true; true; true; false].

(** * Further statements about the I/O core *)

(** A parse call that returned [HOUND_OK] and consumed at least one of the
    bytes it was given: the calls whose records the core publishes. *)
Definition progressed (c : parse_call) : Prop :=
  pc_err c = HOUND_OK ∧ (pc_left c < length (pc_buf c))%nat.

#[global] Instance progressed_dec (c : parse_call) : Decision (progressed c).
Proof. unfold progressed. apply _. Defined.

Section MoreStatements.
Context {drv_priv : Type}.
Implicit Types (ctx : fdctx drv_priv) (w : world).

(** One [io_read] makes at most one parse call per byte read, and none
    when [read] failed. *)
Definition calls_bounded (fd : Z) ctx (rd : read_result) w : Prop :=
  ∃ w' calls,
    run_world (io_read fd ctx rd w) = Some w' ∧
    w_calls w' = w_calls w ++ calls ∧
    (length calls
     ≤ match rd with
       | ReadBytes bytes => length bytes `min` POLL_BUF_SIZE
       | ReadError _ => 0
       end)%nat.

(** One [io_read] without a failed allocation: the wrappers it made are
    the records of the parse calls that made progress, all of them, in
    the order the driver returned them. *)
Definition nothing_lost (fd : Z) ctx (bytes : list byte) w : Prop :=
  ∃ w' calls,
    run_world (io_read fd ctx (ReadBytes bytes) w) = Some w' ∧
    w_calls w' = w_calls w ++ calls ∧
    w_rec_infos w'
    = w_rec_infos w
        ++ (Some <$> stamped (next_seqno ctx) (id (drv ctx))
                             (length (queues ctx))
                             (concat (pc_records <$> filter progressed calls))).

(** One [io_read]: of what the driver put into a record the core changes
    the sequence number and the device id, which becomes the id of the
    driver of the fd, and nothing else; and it wraps no record that a
    parse call of this cycle did not return. *)
Definition stamps_seqno_and_dev_id (fd : Z) ctx (rd : read_result) w : Prop :=
  ∃ w' calls wrappers kept,
    run_world (io_read fd ctx rd w) = Some w' ∧
    w_calls w' = w_calls w ++ calls ∧
    w_rec_infos w' = w_rec_infos w ++ (Some <$> wrappers) ∧
    Forall (λ ri, dev_id (record ri) = id (drv ctx)) wrappers ∧
    (λ ri, payload (record ri)) <$> wrappers = payload <$> kept ∧
    sublist kept (concat (pc_records <$> calls)).

End MoreStatements.

Section MoreTurnStatements.
Context {drv_priv : Type}.

(** What is registered with the loop: the device and the queues of every
    fd context, the fd and the event mask of every pollfd, and whether
    polling is wanted. *)
Definition registration (s : statics drv_priv)
    : list (Z * list queue) * list (Z * Z) * bool :=
  ((λ c, (id (drv c), queues c)) <$> s_ctx s,
   (λ p, (pfd_fd p, pfd_events p)) <$> s_fds s,
   s_poll_active_target s).


End MoreTurnStatements.

Section MoreMutatorStatements.
Context {drv_priv : Type}.
Variable xv_oom : ∀ A : Type, list A → list A.
Variable RM_VEC_INDEX : ∀ A : Type, nat → list A → list A.

(** [s_ios.fds] and [s_ios.ctx] are index-aligned: [get_fdctx] and the
    scan of [io_poll] use the index found in one on the other. *)
Definition aligned (s : statics drv_priv) : Prop :=
  length (s_ctx s) = length (s_fds s).

(** The entry points of io.c that work on [s_ios]: the four mutators,
    called by client threads, and a turn of [io_poll]. *)
Inductive io_call :=
| AddFd (fd : Z) (d : driver drv_priv) (flags setfl : Z)
| RemoveFd (fd : Z)
| AddQueue (fd : Z) (q : queue)
| RemoveQueue (fd : Z) (q : queue)
| PollTurn (res : ppoll_result) (reads : Z → read_result).

(** One call; the functions that return [void] are given [HOUND_OK]. *)
Definition io_step (c : io_call) (s : statics drv_priv) (w : world)
    : outcome (Z * statics drv_priv * world) :=
  let ok (r : outcome (statics drv_priv * world)) :=
    match r with
    | Ret (s, w) => Ret (HOUND_OK, s, w)
    | Aborted a w => Aborted a w
    | OutOfFuel => OutOfFuel
    end in
  match c with
  | AddFd fd d flags setfl => io_add_fd xv_oom fd d flags setfl s w
  | RemoveFd fd => ok (io_remove_fd RM_VEC_INDEX fd s w)
  | AddQueue fd q => io_add_queue xv_oom fd q s w
  | RemoveQueue fd q => ok (io_remove_queue RM_VEC_INDEX fd q s w)
  | PollTurn res reads => ok (io_poll_turn res reads s w)
  end.

(** What a call that returned has done at the pause barrier. *)
Definition barrier_protocol (c : io_call) (err : Z) (s' : statics drv_priv)
    (w w' : world) : Prop :=
  match c with
  | PollTurn _ _ => w_barrier w' = w_barrier w
  | AddQueue _ _ =>
      if decide (err = HOUND_OK)
      then w_barrier w' = w_barrier w ++ [Pause; Resume]
           ∧ s_poll_active_target s' = true
      else w_barrier w' = w_barrier w ++ [Pause]
  | _ => w_barrier w' = w_barrier w ++ [Pause; Resume]
         ∧ s_poll_active_target s' = true
  end.

End MoreMutatorStatements.

(** * [schema.c]: copying a descriptor *)
Module SchemaCopy.
Import Schema.

(** [strdup], [drv_strdup] of a pointer: the string is read from its
    block and put into a new one. *)
Definition strdup (p : ptr) (h : heap) : result (ptr * heap) :=
  match p with
  | Addr a =>
      match h_blocks h !! a with
      | Some (Chars s) => Done (malloc (Chars s) h)
      | _ => Stopped "strdup of a pointer to no string" h
      end
  | _ => Stopped "strdup of a pointer to no string" h
  end.

(** [copy_desc_fmt]: [dst] is returned as the call left it. *)
Definition copy_desc_fmt (src dst : hound_data_fmt) (h : heap)
    : result (Z * hound_data_fmt * heap) :=
  match strdup (fmt_name src) h with
  | Stopped why h => Stopped why h
  | Done (name, h) =>
      if decide (name = NULL) then Done (HOUND_OOM, dst, h)
      else Done (HOUND_OK,
                 mk_fmt name (fmt_unit src) (fmt_offset src) (fmt_size src)
                        (fmt_type src), h)
  end.

(** [src[i]] for reading. *)
Definition read_cell (src : ptr) (i : nat) (h : heap)
    : option hound_data_fmt :=
  match src with
  | Addr a =>
      match h_blocks h !! a with
      | Some (Fmts cells) => cells !! i
      | _ => None
      end
  | _ => None
  end.

(** The loop of [copy_desc_fmts] with [n] entries to go from index [i];
    [a] is the new array. *)
Fixpoint copy_desc_fmts_loop (n : nat) (src : ptr) (a i : nat) (h : heap)
    : result (Z * heap) :=
  match n with
  | O => Done (HOUND_OK, h)
  | S n =>
      match read_cell src i h with
      | None => Stopped "src[i] read outside an array of formats" h
      | Some cell =>
          match copy_desc_fmt cell (mk_fmt Wild None None None None) h with
          | Stopped why h => Stopped why h
          | Done (err, fmt, h) =>
              let h := write_cell a i fmt h in
              if decide (err ≠ HOUND_OK) then
                match destroy_desc_fmts i (Addr a) h with
                | Done h => Done (err, h)
                | Stopped why h => Stopped why h
                end
              else copy_desc_fmts_loop n src a (S i) h
          end
      end
  end.

(** [copy_desc_fmts]: the error and [*out_fmts], [None] when the call did
    not write it. *)
Definition copy_desc_fmts (count : nat) (src : ptr) (h : heap)
    : result (Z * option ptr * heap) :=
  match malloc (Fmts (replicate count (mk_fmt Wild None None None None))) h
  with
  | (Addr a, h) =>
      match copy_desc_fmts_loop count src a 0 h with
      | Stopped why h => Stopped why h
      | Done (err, h) =>
          if decide (err ≠ HOUND_OK) then Done (err, None, h)
          else Done (HOUND_OK, Some (Addr a), h)
      end
  | (_, h) => Done (HOUND_OOM, None, h)
  end.

(** [copy_schema_desc]: the error and [*schema] as the call left it. *)
Definition copy_schema_desc (src schema : schema_desc) (h : heap)
    : result (Z * schema_desc * heap) :=
  match strdup (sd_name src) h with
  | Stopped why h => Stopped why h
  | Done (name, h) =>
      if decide (name = NULL) then Done (HOUND_OOM, schema, h) else
      match copy_desc_fmts (sd_fmt_count src) (sd_fmts src) h with
      | Stopped why h => Stopped why h
      | Done (err, fmts, h) =>
          if decide (err ≠ HOUND_OK) then
            (* error_fmts *)
            match free name h with
            | Done h => Done (err, schema, h)
            | Stopped why h => Stopped why h
            end
          else
            Done (HOUND_OK,
                  mk_desc (sd_data_id src) name (sd_fmt_count src)
                          (default Wild fmts), h)
      end
  end.

(** ** What a descriptor says

    The content of a descriptor as a reader of the heap sees it: the
    strings behind the name pointers instead of the pointers. *)
Definition read_str (p : ptr) (h : heap) : option string :=
  match p with
  | Addr a =>
      match h_blocks h !! a with
      | Some (Chars s) => Some s
      | _ => None
      end
  | _ => None
  end.

Definition fmt_view : Type :=
  string * option hound_unit * option Z * option Z * option Z.

Definition read_fmt (h : heap) (c : hound_data_fmt) : option fmt_view :=
  (λ s, (s, fmt_unit c, fmt_offset c, fmt_size c, fmt_type c))
    <$> read_str (fmt_name c) h.

Definition read_fmts (count : nat) (p : ptr) (h : heap)
    : option (list fmt_view) :=
  if decide (count = 0%nat) then Some [] else
  match p with
  | Addr a =>
      match h_blocks h !! a with
      | Some (Fmts cells) =>
          if decide (count ≤ length cells)%nat
          then mapM (read_fmt h) (take count cells)
          else None
      | _ => None
      end
  | _ => None
  end.

Definition read_desc (d : schema_desc) (h : heap)
    : option (option Z * string * list fmt_view) :=
  match read_str (sd_name d) h, read_fmts (sd_fmt_count d) (sd_fmts d) h with
  | Some s, Some fs => Some (sd_data_id d, s, fs)
  | _, _ => None
  end.

(** The cells [copy_desc_fmt] makes of [cs] when the names go to the
    blocks [base], [base + 1], ... *)
Fixpoint copied (base : nat) (cs : list hound_data_fmt)
    : list hound_data_fmt :=
  match cs with
  | [] => []
  | c :: cs =>
      mk_fmt (Addr base) (fmt_unit c) (fmt_offset c) (fmt_size c)
             (fmt_type c)
      :: copied (S base) cs
  end.

Definition fmt_str (v : fmt_view) : string := v.1.1.1.1.

(** The heap while [copy_desc_fmts] runs for [copy_schema_desc]: after
    the blocks that were there, the copy of the name, the new array with
    [n] cells still to fill, and the names copied so far. *)
Definition copy_state (blocks : list block) (s : string)
    (done : list hound_data_fmt) (n : nat) (strs : list string)
    : list block :=
  blocks
    ++ [Chars s;
        Fmts (copied (S (S (length blocks))) done
                ++ replicate n (mk_fmt Wild None None None None))]
    ++ (Chars <$> strs).

(** The copy was made, and it says what the source says, in blocks that
    did not exist before; or nothing is left of the attempt. *)
Definition copied_or_nothing (src schema : schema_desc) (h : heap) : Prop :=
  ∃ err schema' h' more,
    copy_schema_desc src schema h = Done (err, schema', h') ∧
    h_blocks h' = h_blocks h ++ more ∧
    if decide (err = HOUND_OK) then
      read_desc schema' h' = read_desc src h ∧
      sd_name schema' = Addr (length (h_blocks h)) ∧
      sd_fmts schema' = Addr (S (length (h_blocks h))) ∧
      Forall (λ b, is_live b = true) more
    else
      err = HOUND_OOM ∧ schema' = schema ∧ live h' = live h.

End SchemaCopy.

(** * The test programs *)

(** A test function returns, or one of its assertions stops the test. *)
Inductive checked (A : Type) :=
| Passed (a : A)
| Failed (assertion : string).
Arguments Passed {A} a.
Arguments Failed {A} assertion.

(** ** [test/driver/nop.c] *)
Module NopDriver.

Definition FD_INVALID : Z := -1.

(** [nop_start]: [opened] is what [open] returned; the state is the
    static [s_fd]; the result is the error, [*fd] and [s_fd]. *)
Definition nop_start (opened : Z) (s_fd : Z) : checked (Z * Z * Z) :=
  if decide (s_fd ≠ FD_INVALID) then Failed "XASSERT_EQ(s_fd, FD_INVALID)"
  else
    let s_fd := opened in
    if decide (s_fd = -1) then Failed "XASSERT_NEQ(s_fd, -1)"
    else Passed (HOUND_OK, s_fd, s_fd).

(** [nop_stop]: [closed] is what [close] returned. *)
Definition nop_stop (closed : Z) (s_fd : Z) : checked (Z * Z) :=
  if decide (s_fd = FD_INVALID) then Failed "XASSERT_NEQ(s_fd, FD_INVALID)"
  else if decide (closed = -1) then Failed "XASSERT_NEQ(err, -1)"
  else Passed (HOUND_OK, s_fd).

Inductive nop_call :=
| Start (opened : Z)
| Stop (closed : Z).

(** The driver core starting and stopping the driver; the result is
    [s_fd] after the last call. *)
Fixpoint nop_run (calls : list nop_call) (s_fd : Z) : checked Z :=
  match calls with
  | [] => Passed s_fd
  | Start opened :: calls =>
      match nop_start opened s_fd with
      | Passed (_, _, s_fd) => nop_run calls s_fd
      | Failed a => Failed a
      end
  | Stop closed :: calls =>
      match nop_stop closed s_fd with
      | Passed (_, s_fd) => nop_run calls s_fd
      | Failed a => Failed a
      end
  end.

End NopDriver.

(** ** [test/file.c] *)
Module FileTest.

#[global] Instance byte_eq_dec : EqDecision byte := Byte.byte_eq_dec.

(** [struct text] *)
Record text := mk_text {
  t_data : list byte;
  t_index : nat;
}.

(** [data_cb]: [memcmp] compares [record->size] bytes; a comparison that
    would read past the end of the text or of the record's data is
    counted as a stop of the test. *)
Definition data_cb (rec : hound_record) (t : text) : checked text :=
  if decide (size rec ≤ 0) then Failed "XASSERT_GT(record->size, 0)" else
  let n := Z.to_nat (size rec) in
  if decide (length (data rec) < n)%nat
  then Failed "memcmp reads past the end of record->data"
  else if decide (length (t_data t) < t_index t + n)%nat
  then Failed "memcmp reads past the end of text->data"
  else if decide (take n (drop (t_index t) (t_data t)) = take n (data rec))
  then Passed (mk_text (t_data t) (t_index t + n))
  else Failed "XASSERT_EQ(ret, 0)".

(** The callback on the records of a run, one after the other. *)
Fixpoint data_cbs (recs : list hound_record) (t : text) : checked text :=
  match recs with
  | [] => Passed t
  | rec :: recs =>
      match data_cb rec t with
      | Passed t => data_cbs recs t
      | Failed a => Failed a
      end
  end.

(** The [do ... while] of [slurp_file]: [reads k count] is what the
    [k]-th [read] returned when asked for [count] bytes; the result is
    [bytes]. *)
Fixpoint slurp_loop (fuel : nat) (reads : nat → Z → Z) (st_size : Z)
    (k : nat) (bytes : Z) : option (checked Z) :=
  match fuel with
  | O => None
  | S fuel =>
      let ret := reads k (st_size - bytes) in
      if decide (ret ≤ 0) then Some (Failed "XASSERT_GT(ret, 0)") else
      let bytes := bytes + ret in
      if decide (bytes < st_size)
      then slurp_loop fuel reads st_size (S k) bytes
      else Some (Passed bytes)
  end.

(** [slurp_file]: [fd], [fstat_ret] and [malloc_ok] are what [open],
    [fstat] and [malloc] gave; the result is [*count] and the number of
    bytes put into [data]. *)
Definition slurp_file (fuel : nat) (fd fstat_ret st_size : Z)
    (malloc_ok : bool) (reads : nat → Z → Z) : option (checked (Z * Z)) :=
  if decide (fd = -1) then Some (Failed "XASSERT_NEQ(fd, -1)") else
  if decide (fstat_ret ≠ 0) then Some (Failed "XASSERT_EQ(ret, 0)") else
  if negb malloc_ok then Some (Failed "XASSERT_NOT_NULL(data)") else
  match slurp_loop fuel reads st_size 0 0 with
  | None => None
  | Some (Failed a) => Some (Failed a)
  | Some (Passed bytes) => Some (Passed (st_size, bytes))
  end.

End FileTest.

(** ** [test/obd.c] *)
Module ObdTest.

(** [struct modepid] *)
Record modepid := mk_modepid {
  mode : Z;
  pid : Z;
  count : Z;
}.

(** [record->seqno], before [struct test_ctx] takes the name. *)
Definition record_seqno (rec : hound_record) : Z := seqno rec.

(** [struct test_ctx]; [count] is the length of [obd_rqs]. *)
Record test_ctx := mk_test_ctx {
  seqno : Z;
  obd_rqs : list modepid;
  iface : string;
}.

Definition sizeof_float : Z := 4.

Section DataCb.

(** [hound_obd_get_mode_pid] and [hound_get_dev_name] are not among the
    sources; the second gives an error code and a name. *)
Variable hound_obd_get_mode_pid : Z → Z * Z.
Variable hound_get_dev_name : Z → Z * string.

Definition matches (rec : hound_record) (mp : modepid) : Prop :=
  mode mp = (hound_obd_get_mode_pid (data_id rec)).1
  ∧ pid mp = (hound_obd_get_mode_pid (data_id rec)).2.

(** [data_cb]; the counters are [size_t]. *)
Definition data_cb (rec : hound_record) (ctx : test_ctx)
    : checked test_ctx :=
  if decide (size rec ≠ sizeof_float)
  then Failed "XASSERT_EQ(record->size, sizeof(float))" else
  if decide (seqno ctx ≠ record_seqno rec)
  then Failed "XASSERT_EQ(ctx->seqno, record->seqno)" else
  let rqs :=
    (λ mp, if decide (matches rec mp)
           then mk_modepid (mode mp) (pid mp) (wrap64 (count mp + 1))
           else mp) <$> obd_rqs ctx in
  let '(err, dev_name) := hound_get_dev_name (dev_id rec) in
  if decide (err ≠ HOUND_OK) then Failed "XASSERT_OK(err)" else
  if decide (dev_name ≠ iface ctx)
  then Failed "XASSERT_STREQ(dev_name, ctx->iface)" else
  Passed (mk_test_ctx (wrap64 (seqno ctx + 1)) rqs (iface ctx)).

Fixpoint data_cbs (recs : list hound_record) (ctx : test_ctx)
    : checked test_ctx :=
  match recs with
  | [] => Passed ctx
  | rec :: recs =>
      match data_cb rec ctx with
      | Passed ctx => data_cbs recs ctx
      | Failed a => Failed a
      end
  end.

End DataCb.

End ObdTest.

(** * Proofs *)

Lemma foldl_queue_push (qs : list queue) (p : nat) (w : world) :
  foldl (λ w q, queue_push q p w) w qs
  = set_pushes (λ l, l ++ map (λ q, (q, p)) qs) w.
Proof.
  revert w. induction qs as [|q qs IH]; intros w; simpl.
  - destruct w; unfold set_pushes; simpl. by rewrite app_nil_r.
  - rewrite IH. destruct w; unfold queue_push, set_pushes; simpl.
    by rewrite <- app_assoc.
Qed.

Lemma insert_fresh_cell {A} (h : list (option A)) (x : A) :
  <[length h := Some x]> (h ++ [None]) = h ++ [Some x].
Proof.
  rewrite insert_app_r_alt by lia. by rewrite Nat.sub_diag.
Qed.

Lemma advance_S (s : Z) (n : nat) :
  advance s (S n) = advance (wrap64 (s + 1)) n.
Proof.
  unfold advance. induction n as [|n IH]; [done|].
  simpl in *. by rewrite IH.
Qed.

Lemma delivered_nil (records : list hound_record) :
  delivered [] records = records.
Proof. by destruct records. Qed.

Global Arguments advance : simpl never.

Lemma fan_S (qs : list queue) (base n : nat) :
  fan qs base (S n) = map (λ q, (q, base)) qs ++ fan qs (S base) n.
Proof. done. Qed.

Lemma delivered_length (plan : list bool) (records : list hound_record) :
  (length (delivered plan records) ≤ length records)%nat.
Proof.
  revert plan. induction records as [|r rs IH]; intros [|[] plan]; simpl;
    try lia; specialize (IH plan); lia.
Qed.

Section PublishAll.
Context {drv_priv : Type}.
Implicit Types (ctx : fdctx drv_priv) (w : world).

(** [publish_all] in closed form. *)
Lemma publish_all_eq ctx (records : list hound_record) w :
  let kept := delivered (w_alloc w) records in
  publish_all ctx records w
  = (mk_fdctx (drv ctx) (advance (next_seqno ctx) (length kept)) (queues ctx),
     mk_world
       (w_read_buf w)
       (w_rec_infos w
          ++ (Some <$> stamped (next_seqno ctx) (id (drv ctx))
                               (length (queues ctx)) kept))
       (drop (length records) (w_alloc w))
       (w_log w ++ replicate (length records - length kept) oom_line)
       (w_reads w) (w_calls w)
       (w_pushes w ++ fan (queues ctx) (length (w_rec_infos w)) (length kept))
       (w_barrier w)).
Proof.
  revert ctx w. induction records as [|r rs IH]; intros ctx w.
  - destruct ctx, w; simpl. by rewrite !app_nil_r, drop_0.
  - destruct ctx as [d s qs], w as [rb h plan lg rds cls ps br].
    cbn [publish_all]. unfold publish, drv_alloc, next_alloc.
    destruct plan as [|[] plan]; cbn -[delivered fan].
    + rewrite foldl_queue_push, IH. cbn -[delivered fan].
      rewrite !delivered_nil. cbn [length].
      rewrite insert_fresh_cell, length_app, advance_S, fan_S.
      cbn [length stamped fmap list_fmap].
      rewrite <- !app_assoc, Nat.add_1_r, !Nat.sub_diag, drop_nil.
      done.
    + rewrite foldl_queue_push, IH. cbn -[delivered fan].
      cbn [delivered length stamped fmap list_fmap].
      rewrite insert_fresh_cell, length_app, advance_S, fan_S.
      cbn [length].
      rewrite <- !app_assoc, Nat.add_1_r, !drop_0.
      done.
    + unfold hound_log_err. rewrite IH. cbn -[delivered fan].
      cbn [delivered].
      rewrite drop_0, <- app_assoc.
      pose proof (delivered_length plan rs).
      by replace (S (length rs) - length (delivered plan rs))%nat
        with (S (length rs - length (delivered plan rs))) by lia.
Qed.

End PublishAll.

(** ** Reasoning about the parse loop *)

Section ParseLoop.
Context {drv_priv : Type}.
Implicit Types (ctx : fdctx drv_priv) (w : world) (d : driver drv_priv).

(** Induction over the turns of the loop: a property of (state, result)
    pairs that holds at each of the five exits and is carried backwards
    over a turn that consumed bytes holds for every run with enough fuel. *)
Lemma parse_loop_cases
    (P : fdctx drv_priv → nat → nat → world
         → outcome (Z * fdctx drv_priv * world) → Prop) :
  (∀ ctx pos w, P ctx pos 0%nat w (Ret (HOUND_OK, ctx, w))) →
  (∀ ctx pos n w d reply,
     n ≠ 0%nat →
     drv_op_parse (drv ctx) (take n (drop pos (w_read_buf w)))
                  HOUND_DRIVER_MAX_RECORDS = (d, reply) →
     pr_err reply ≠ HOUND_OK →
     P ctx pos n w
       (Ret (pr_err reply, after_call ctx d,
             hound_log_err (pr_err reply) parse_failed_line
                           (call_logged ctx pos n w)))) →
  (∀ ctx pos n w d reply,
     n ≠ 0%nat →
     drv_op_parse (drv ctx) (take n (drop pos (w_read_buf w)))
                  HOUND_DRIVER_MAX_RECORDS = (d, reply) →
     pr_err reply = HOUND_OK → (n < pr_bytes reply)%nat →
     P ctx pos n w
       (Aborted "XASSERT_LTE(bytes_left, bytes_total)"
                (call_logged ctx pos n w))) →
  (∀ ctx pos n w d reply,
     n ≠ 0%nat →
     drv_op_parse (drv ctx) (take n (drop pos (w_read_buf w)))
                  HOUND_DRIVER_MAX_RECORDS = (d, reply) →
     pr_err reply = HOUND_OK → pr_bytes reply = n →
     P ctx pos n w
       (Ret (HOUND_OK, after_call ctx d, call_logged ctx pos n w))) →
  (∀ ctx pos n w d reply,
     n ≠ 0%nat →
     drv_op_parse (drv ctx) (take n (drop pos (w_read_buf w)))
                  HOUND_DRIVER_MAX_RECORDS = (d, reply) →
     pr_err reply = HOUND_OK → (pr_bytes reply < n)%nat →
     pr_records reply = [] →
     P ctx pos n w
       (Aborted "XASSERT_GT(record_count, 0)" (call_logged ctx pos n w))) →
  (∀ ctx pos n w d reply r,
     n ≠ 0%nat →
     drv_op_parse (drv ctx) (take n (drop pos (w_read_buf w)))
                  HOUND_DRIVER_MAX_RECORDS = (d, reply) →
     pr_err reply = HOUND_OK → (pr_bytes reply < n)%nat →
     pr_records reply ≠ [] →
     let '(ctx', w') :=
       publish_all (after_call ctx d) (pr_records reply)
                   (call_logged ctx pos n w) in
     P ctx' (pos + (n - pr_bytes reply))%nat (pr_bytes reply) w' r →
     P ctx pos n w r) →
  ∀ fuel ctx pos n w,
    (n < fuel)%nat → P ctx pos n w (parse_loop fuel ctx pos n w).
Proof.
  intros Hdone Hfail Hgrow Hstall Hempty Hmore.
  induction fuel as [|fuel IH]; intros ctx pos n w Hfuel; [lia|].
  cbn [parse_loop].
  destruct (decide (n = 0%nat)) as [->|Hn]; [apply Hdone|].
  pose proof (Hfail ctx pos n w) as Hfail'.
  pose proof (Hgrow ctx pos n w) as Hgrow'.
  pose proof (Hstall ctx pos n w) as Hstall'.
  pose proof (Hempty ctx pos n w) as Hempty'.
  pose proof (Hmore ctx pos n w) as Hmore'.
  unfold call_logged, call_made in *.
  destruct (drv_op_parse (drv ctx) (take n (drop pos (w_read_buf w)))
              HOUND_DRIVER_MAX_RECORDS) as [d reply] eqn:Hcall.
  destruct (decide (pr_err reply ≠ HOUND_OK)) as [Herr|Herr];
    [by eapply Hfail'|].
  apply dec_stable in Herr.
  destruct (decide (n < pr_bytes reply)%nat) as [Hgt|Hle];
    [by eapply Hgrow'|].
  destruct (decide (pr_bytes reply = n)) as [Heq|Hne];
    [by eapply Hstall'|].
  destruct (decide (length (pr_records reply) = 0%nat)) as [Hz|Hnz].
  { eapply Hempty'; eauto; [lia|]. by destruct (pr_records reply). }
  specialize (Hmore' d reply
    (parse_loop fuel
       (publish_all (after_call ctx d) (pr_records reply)
          (set_calls (λ l, l ++ [mk_call (id d) pos
             (take n (drop pos (w_read_buf w))) HOUND_DRIVER_MAX_RECORDS
             (pr_err reply) (pr_bytes reply) (pr_records reply)]) w)).1
       (pos + (n - pr_bytes reply))%nat (pr_bytes reply)
       (publish_all (after_call ctx d) (pr_records reply)
          (set_calls (λ l, l ++ [mk_call (id d) pos
             (take n (drop pos (w_read_buf w))) HOUND_DRIVER_MAX_RECORDS
             (pr_err reply) (pr_bytes reply) (pr_records reply)]) w)).2)
    Hn eq_refl Herr ltac:(lia)
    ltac:(by destruct (pr_records reply))).
  unfold after_call in *.
  destruct (publish_all _ _ _) as [ctx' w'] eqn:Hpub.
  apply Hmore'. apply IH. lia.
Qed.

(** The loop of [io_read] always ends: started with more fuel than bytes,
    it never runs out. *)
Lemma parse_loop_fuel_enough (fuel : nat) ctx (pos n : nat) w :
  (n < fuel)%nat → parse_loop fuel ctx pos n w ≠ OutOfFuel.
Proof.
  apply (parse_loop_cases (λ _ _ _ _ r, r ≠ OutOfFuel)); try done.
  intros ctx' pos' n' w' d reply r _ _ _ _ _.
  by destruct (publish_all _ _ _).
Qed.

Lemma io_read_fuel_enough (fd : Z) ctx (rd : read_result) w :
  io_read fd ctx rd w ≠ OutOfFuel.
Proof.
  unfold io_read. destruct rd as [bytes|errno].
  - apply parse_loop_fuel_enough. lia.
  - repeat case_decide; done.
Qed.

End ParseLoop.

(** ** Facts about the closed forms *)

Lemma advance_add (s : Z) (n m : nat) :
  advance s (n + m) = advance (advance s n) m.
Proof.
  revert s. induction n as [|n IH]; intros s; [done|].
  cbn [Nat.add]. by rewrite !advance_S, IH.
Qed.

Lemma wrap64_idemp (z : Z) : wrap64 (wrap64 z + 1) = wrap64 (z + 1).
Proof. unfold wrap64. by rewrite Zplus_mod_idemp_l. Qed.

Lemma wrap64_small (z : Z) : 0 ≤ z < 2 ^ 64 → wrap64 z = z.
Proof. intros. unfold wrap64. by apply Z.mod_small. Qed.

Lemma advance_wrap64 (s : Z) (n : nat) :
  0 ≤ s < 2 ^ 64 → advance s n = wrap64 (s + Z.of_nat n).
Proof.
  intros Hs. induction n as [|n IH].
  - unfold advance; simpl. rewrite Z.add_0_r. by rewrite wrap64_small.
  - replace (S n) with (n + 1)%nat by lia.
    rewrite advance_add, IH. unfold advance at 1; simpl.
    rewrite wrap64_idemp. f_equal. lia.
Qed.


Lemma stamped_length (s dev : Z) (nq : nat) (rs : list hound_record) :
  length (stamped s dev nq rs) = length rs.
Proof. revert s. induction rs as [|r rs IH]; intros s; simpl; by f_equal. Qed.

Lemma stamped_app (s dev : Z) (nq : nat) (xs ys : list hound_record) :
  stamped s dev nq (xs ++ ys)
  = stamped s dev nq xs ++ stamped (advance s (length xs)) dev nq ys.
Proof.
  revert s. induction xs as [|x xs IH]; intros s; [done|].
  cbn [app stamped length]. by rewrite IH, advance_S.
Qed.

(** The wrappers of a batch carry the counter values [s], [s + 1], ... *)
Lemma stamped_seqnos (s dev : Z) (nq : nat) (rs : list hound_record) :
  (λ ri, seqno (record ri)) <$> stamped s dev nq rs
  = (λ k, advance s k) <$> seq 0 (length rs).
Proof.
  revert s. induction rs as [|r rs IH]; intros s; [done|].
  cbn [stamped length seq fmap list_fmap record seqno].
  rewrite IH. f_equal. rewrite <- fmap_S_seq, <- list_fmap_compose.
  apply list_fmap_ext. intros _ k _. simpl. by rewrite advance_S.
Qed.

Lemma stamped_refcounts (s dev : Z) (nq : nat) (rs : list hound_record) :
  Forall (λ ri, refcount ri = nq ∧ dev_id (record ri) = dev)
         (stamped s dev nq rs).
Proof.
  revert s. induction rs as [|r rs IH]; intros s; constructor; auto.
Qed.

Lemma stamped_payload (s dev : Z) (nq : nat) (rs : list hound_record) :
  (λ ri, (data_id (record ri), timestamp (record ri), size (record ri),
          data (record ri))) <$> stamped s dev nq rs
  = (λ r, (data_id r, timestamp r, size r, data r)) <$> rs.
Proof.
  revert s. induction rs as [|r rs IH]; intros s; [done|].
  cbn [stamped fmap list_fmap]. by rewrite IH.
Qed.

Lemma fan_app (qs : list queue) (base n m : nat) :
  fan qs base (n + m) = fan qs base n ++ fan qs (base + n) m.
Proof.
  unfold fan. by rewrite seq_app, map_app, concat_app.
Qed.

Lemma filter_pushes_same (qs : list queue) (p : nat) :
  filter (λ x : queue * nat, x.2 = p) ((λ q, (q, p)) <$> qs)
  = (λ q, (q, p)) <$> qs.
Proof.
  induction qs as [|q qs IH]; [done|].
  cbn [fmap list_fmap]. rewrite filter_cons_True by done.
  f_equal. apply IH.
Qed.

Lemma filter_pushes_other (qs : list queue) (p p' : nat) :
  p ≠ p' →
  filter (λ x : queue * nat, x.2 = p) ((λ q, (q, p')) <$> qs) = [].
Proof.
  intros Hne. induction qs as [|q qs IH]; [done|].
  cbn [fmap list_fmap]. rewrite filter_cons_False by (simpl; congruence).
  apply IH.
Qed.

Lemma filter_fan_below (qs : list queue) (base n p : nat) :
  (p < base)%nat → filter (λ x : queue * nat, x.2 = p) (fan qs base n) = [].
Proof.
  revert base. induction n as [|k IH]; intros b Hb; [done|].
  rewrite fan_S, filter_app, filter_pushes_other by lia.
  rewrite IH by lia. done.
Qed.

(** Among the pushes of a batch, those of one wrapper are one push per
    entry of the queue vector. *)
Lemma fan_of_wrapper (qs : list queue) (base n p : nat) :
  (base ≤ p < base + n)%nat →
  filter (λ x, x.2 = p) (fan qs base n) = (λ q, (q, p)) <$> qs.
Proof.
  revert base. induction n as [|k IH]; intros base Hp; [lia|].
  rewrite fan_S, filter_app.
  destruct (decide (p = base)) as [->|Hne].
  - rewrite filter_pushes_same, filter_fan_below by lia.
    by rewrite app_nil_r.
  - rewrite filter_pushes_other by done. apply IH. lia.
Qed.

Lemma delivered_sublist (plan : list bool) (records : list hound_record) :
  sublist (delivered plan records) records.
Proof.
  revert plan. induction records as [|r rs IH]; intros plan; [done|].
  destruct plan as [|[] plan]; cbn [delivered].
  - done.
  - by apply sublist_skip.
  - by apply sublist_cons.
Qed.

(** [delivered] keeps exactly the records whose allocation is not marked
    as failing. *)
Lemma delivered_filter_pad (plan : list bool) (records : list hound_record)
    (m : nat) :
  (length records ≤ m)%nat →
  delivered plan records
  = (filter (λ x, x.2 = true) (zip records (plan ++ replicate m true))).*1.
Proof.
  revert plan m. induction records as [|r rs IH]; intros plan m Hm; [done|].
  cbn [length] in Hm.
  destruct plan as [|[] plan]; cbn [delivered].
  - destruct m as [|m]; [lia|].
    cbn [app length replicate zip zip_with].
    rewrite filter_cons_True by done. cbn [fmap list_fmap fst]. f_equal.
    rewrite <- (delivered_nil rs) at 1. apply (IH [] m). lia.
  - cbn [app zip zip_with]. rewrite filter_cons_True by done.
    cbn [fmap list_fmap fst]. f_equal. apply IH. lia.
  - cbn [app zip zip_with]. rewrite filter_cons_False by done.
    apply IH. lia.
Qed.

(** ** What one [io_read] adds to the world *)

Section IoReadEffect.
Context {drv_priv : Type}.
Implicit Types (ctx : fdctx drv_priv) (w : world) (d : driver drv_priv).
Implicit Types (r : outcome (Z * fdctx drv_priv * world)).

Lemma drv_op_parse_id d (buf : list byte) (cap : nat) d' reply :
  drv_op_parse d buf cap = (d', reply) → id d' = id d.
Proof.
  unfold drv_op_parse. destruct (parse d (priv d) buf cap) as [p rep].
  by intros [= <- _].
Qed.

Lemma call_made_capacity ctx (pos n : nat) w :
  pc_capacity (call_made ctx pos n w) = HOUND_DRIVER_MAX_RECORDS.
Proof. unfold call_made. by destruct (drv_op_parse _ _ _). Qed.

Lemma run_published_stop ctx (pos n : nat) w (line : list (Z * string)) :
  published ctx w (set_log (λ l, l ++ line) (call_logged ctx pos n w))
            [call_made ctx pos n w] [].
Proof.
  destruct w; unfold call_logged, set_log, set_calls; simpl.
  constructor; simpl; rewrite ?app_nil_r; try done.
  - apply sublist_nil_l.
  - repeat constructor. apply call_made_capacity.
  - by eexists.
Qed.

Lemma run_published_stop0 ctx (pos n : nat) w :
  published ctx w (call_logged ctx pos n w) [call_made ctx pos n w] [].
Proof.
  pose proof (run_published_stop ctx pos n w []) as H.
  destruct w; unfold set_log in H; simpl in H.
  by rewrite app_nil_r in H.
Qed.

Lemma published_refl ctx w : published ctx w w [] [].
Proof.
  constructor; simpl; rewrite ?app_nil_r; try done.
  exists []. by rewrite app_nil_r.
Qed.

Lemma parse_loop_published (fuel : nat) ctx (pos n : nat) w :
  (n < fuel)%nat → run_published ctx w (parse_loop fuel ctx pos n w).
Proof.
  apply (parse_loop_cases (λ ctx _ _ w r, run_published ctx w r)).
  - intros c _ w0. exists w0, [], []. split; [done|]. split.
    + apply published_refl.
    + by intros ??? [= _ <- _].
  - intros c p k w0 d reply _ Hcall _.
    eexists _, _, []. split; [done|]. split.
    + unfold hound_log_err. apply run_published_stop.
    + intros ??? [= _ <- _]. split_and!; try done.
      simpl. by eapply drv_op_parse_id.
  - intros c p k w0 d reply _ Hcall _ _.
    eexists _, _, []. split; [done|]. split; [|done].
    apply run_published_stop0.
  - intros c p k w0 d reply _ Hcall _ _.
    eexists _, _, []. split; [done|]. split.
    + apply run_published_stop0.
    + intros ??? [= _ <- _]. split_and!; try done.
      simpl. by eapply drv_op_parse_id.
  - intros c p k w0 d reply _ Hcall _ _ _.
    eexists _, _, []. split; [done|]. split; [|done].
    apply run_published_stop0.
  - intros c p k w0 d reply r _ Hcall _ _ _.
    rewrite publish_all_eq.
    intros (w' & calls & kept & Hw'
            & [Hc Hk Hi Hp Hcap [lines Hl] Hb Hr Hbar] & Hctx).
    cbn [after_call drv next_seqno queues w_rec_infos w_pushes w_calls
         w_alloc w_read_buf w_barrier w_log w_reads] in *.
    pose proof (drv_op_parse_id _ _ _ _ _ Hcall) as Hid.
    assert (Hmade : call_made c p k w0
                    = mk_call (id d) p (take k (drop p (w_read_buf w0)))
                        HOUND_DRIVER_MAX_RECORDS (pr_err reply)
                        (pr_bytes reply) (pr_records reply)).
    { unfold call_made. by rewrite Hcall. }
    set (batch := delivered (w_alloc (call_logged c p k w0))
                            (pr_records reply)) in *.
    exists w', (call_made c p k w0 :: calls), (batch ++ kept).
    split; [done|]. split.
    + destruct w0 as [rb h plan lg rds cls ps br].
      unfold call_logged, set_calls in *; simpl in *.
      constructor; simpl.
      * by rewrite Hc, <- app_assoc.
      * rewrite Hmade. simpl. apply sublist_app; [|done].
        apply delivered_sublist.
      * rewrite Hi, <- app_assoc, stamped_app, fmap_app, Hid. done.
      * rewrite Hp, <- app_assoc, length_app, length_fmap, stamped_length,
          length_app, fan_app. done.
      * constructor; [by rewrite Hmade|done].
      * rewrite Hl, <- app_assoc. by eexists.
      * done.
      * done.
      * done.
    + intros err ctx' w'' ->. destruct (Hctx _ _ _ eq_refl) as (Hs & Hq & Hd).
      split_and!; [|done|congruence].
      by rewrite Hs, length_app, advance_add.
Qed.

Lemma io_read_published (fd : Z) ctx (rd : read_result) w :
  run_published ctx (after_read fd rd w) (io_read fd ctx rd w).
Proof.
  unfold io_read, after_read. destruct rd as [bytes|errno].
  - apply parse_loop_published. lia.
  - assert (Hw : set_read_buf (λ b, b) (set_reads (λ l, l ++ [fd]) w)
                 = set_reads (λ l, l ++ [fd]) w) by by destruct w.
    rewrite Hw. clear Hw. set (w1 := set_reads _ w).
    repeat case_decide.
    + exists w1, [], []. split; [done|]. split.
      * apply published_refl.
      * by intros ??? [= _ <- _].
    + eexists _, [], []. split; [done|]. split.
      * destruct w1; unfold hound_log_err, set_log; simpl.
        constructor; simpl; rewrite ?app_nil_r; try done. by eexists.
      * by intros ??? [= _ <- _].
    + exists w1, [], []. split; [done|]. split; [|done].
      apply published_refl.
Qed.

(** *** The calls of a cycle *)

Lemma slice_of_read (data rest : list byte) (pos n : nat) :
  (pos + n ≤ length data)%nat →
  take n (drop pos (data ++ rest)) = take n (drop pos data)
  ∧ length (take n (drop pos data)) = n.
Proof.
  intros Hn. split.
  - rewrite drop_app_le by lia. apply take_app_le.
    rewrite length_drop. lia.
  - rewrite length_take, length_drop. lia.
Qed.

Lemma call_made_offered ctx (pos n : nat) w (data rest : list byte) :
  w_read_buf w = data ++ rest → (pos + n ≤ length data)%nat →
  offered data pos n (call_made ctx pos n w).
Proof.
  intros Hbuf Hn. destruct (slice_of_read data rest pos n Hn) as [Hs Hl].
  unfold offered, call_made. rewrite Hbuf, Hs.
  by destruct (drv_op_parse _ _ _).
Qed.

Lemma call_made_reply ctx (pos n : nat) w d reply :
  drv_op_parse (drv ctx) (take n (drop pos (w_read_buf w)))
               HOUND_DRIVER_MAX_RECORDS = (d, reply) →
  pc_err (call_made ctx pos n w) = pr_err reply
  ∧ pc_left (call_made ctx pos n w) = pr_bytes reply
  ∧ pc_records (call_made ctx pos n w) = pr_records reply.
Proof. intros Hcall. unfold call_made. by rewrite Hcall. Qed.

Lemma parse_loop_cycle (fuel : nat) ctx (pos n : nat) w :
  (n < fuel)%nat →
  ∀ data rest,
    w_read_buf w = data ++ rest → (pos + n ≤ length data)%nat →
    ∃ w' calls e,
      run_world (parse_loop fuel ctx pos n w) = Some w' ∧
      w_calls w' = w_calls w ++ calls ∧
      parse_cycle data pos n calls e ∧
      ends_as (parse_loop fuel ctx pos n w) e.
Proof.
  apply (parse_loop_cases (λ ctx pos n w r,
    ∀ data rest,
      w_read_buf w = data ++ rest → (pos + n ≤ length data)%nat →
      ∃ w' calls e,
        run_world r = Some w' ∧ w_calls w' = w_calls w ++ calls ∧
        parse_cycle data pos n calls e ∧ ends_as r e)).
  - intros c p w0 data rest _ _. exists w0, [], AllConsumed.
    split_and!; try done; [by rewrite app_nil_r|constructor].
  - intros c p k w0 d reply Hk Hcall Herr data rest Hbuf Hn.
    destruct (call_made_reply _ _ _ _ _ _ Hcall) as (He & Hl & Hr).
    eexists _, [call_made c p k w0], (ParseFailed (pr_err reply)).
    split_and!; [done|by destruct w0| |].
    + rewrite <- He. apply cycle_failed; [done| |by rewrite He].
      by eapply call_made_offered.
    + simpl. split_and!; try done. by eexists.
  - intros c p k w0 d reply Hk Hcall Herr Hgt data rest Hbuf Hn.
    destruct (call_made_reply _ _ _ _ _ _ Hcall) as (He & Hl & Hr).
    eexists _, [call_made c p k w0], Asserted.
    split_and!; [done|by destruct w0| |done].
    apply cycle_grew; [done| |congruence|lia].
    by eapply call_made_offered.
  - intros c p k w0 d reply Hk Hcall Herr Heq data rest Hbuf Hn.
    destruct (call_made_reply _ _ _ _ _ _ Hcall) as (He & Hl & Hr).
    eexists _, [call_made c p k w0], (Stalled k).
    split_and!; [done|by destruct w0| |done].
    apply cycle_stalled; [done| |congruence|congruence].
    by eapply call_made_offered.
  - intros c p k w0 d reply Hk Hcall Herr Hlt Hnil data rest Hbuf Hn.
    destruct (call_made_reply _ _ _ _ _ _ Hcall) as (He & Hl & Hr).
    eexists _, [call_made c p k w0], Asserted.
    split_and!; [done|by destruct w0| |done].
    apply cycle_no_record; [done| |congruence|lia|congruence].
    by eapply call_made_offered.
  - intros c p k w0 d reply r Hk Hcall Herr Hlt Hrec.
    rewrite publish_all_eq. intros IH data rest Hbuf Hn.
    destruct (call_made_reply _ _ _ _ _ _ Hcall) as (He & Hl & Hr).
    destruct (IH data rest) as (w' & calls & e & Hw' & Hc & Hcyc & Hend).
    { by destruct w0. }
    { lia. }
    exists w', (call_made c p k w0 :: calls), e.
    split_and!; try done.
    + rewrite Hc. destruct w0; simpl. by rewrite <- app_assoc.
    + apply cycle_again;
        [done|by eapply call_made_offered|congruence|lia|congruence|].
      by rewrite Hl.
Qed.

(** *** The life of one fd *)


Section Session.
Variable xv_oom : ∀ A : Type, list A → list A.
Variable RM_VEC_INDEX : ∀ A : Type, nat → list A → list A.




End Session.

(** *** A scan of the ready fds *)

Lemma io_read_cycle (fd : Z) ctx (bytes : list byte) w :
  cycle_disciplined fd ctx bytes w.
Proof.
  unfold cycle_disciplined, io_read.
  set (data := take POLL_BUF_SIZE bytes).
  destruct (parse_loop_cycle (S (length data)) ctx 0 (length data)
              (set_read_buf (λ b, data ++ drop (length data) b)
                 (set_reads (λ l, l ++ [fd]) w))
              ltac:(lia) data (drop (length data) (w_read_buf w)))
    as (w' & calls & e & Hw' & Hc & Hcyc & Hend);
    [by destruct w|simpl; lia|].
  by exists w', calls, e.
Qed.








Lemma set_revents_same_fds (fds : list pollfd) (revents : list Z) :
  (λ p, (pfd_fd p, pfd_events p)) <$> set_revents fds revents
  = (λ p, (pfd_fd p, pfd_events p)) <$> fds.
Proof.
  revert revents. induction fds as [|pfd fds IH]; intros revents; [done|].
  cbn [set_revents fmap list_fmap]. f_equal. apply IH.
Qed.



End IoReadEffect.

(** * The claims *)

Section Claims.
Context {drv_priv : Type}.
Implicit Types (ctx : fdctx drv_priv) (w : world) (d : driver drv_priv).

(** C10. If the wrapper of one record cannot be allocated during fan-out,
    the loop logs the failure and skips that record only: the sequence
    counter is neither assigned nor advanced for it, the remaining records
    of the same parse batch are still wrapped and pushed, and the records
    that reach the queues carry consecutive sequence numbers. *)
Theorem oom_skips_one_record_without_seqno_gap ctx
    (records : list hound_record) w :
  0 ≤ next_seqno ctx < 2 ^ 64 →
  batch_skips_failed ctx records w.
Proof.
  intros Hs. unfold batch_skips_failed. rewrite publish_all_eq.
  rewrite <- (delivered_filter_pad (w_alloc w) records (length records))
    by done.
  set (kept := delivered (w_alloc w) records).
  exists (stamped (next_seqno ctx) (id (drv ctx)) (length (queues ctx)) kept).
  cbn [w_rec_infos w_log w_pushes next_seqno].
  split_and!; try done.
  - apply stamped_payload.
  - unfold seqnos. rewrite stamped_seqnos. apply list_fmap_ext.
    intros _ k _. by apply advance_wrap64.
  - by apply advance_wrap64.
Qed.



(** C3 (as amended). In a read cycle of a parse-style driver, a parse call
    that returns [HOUND_OK] having consumed at least one byte and produced
    at least one record makes the core advance its position by exactly the
    bytes consumed and call parse again on the bytes that remain; the
    calls stop when nothing remains, when the driver leaves the byte count
    unchanged (the unconsumed bytes are dropped: the next cycle starts
    from the bytes of its own read), or when a call fails (logged); a call
    that consumed bytes without producing a record, or that reports more
    bytes than it was given, fails an assertion. *)
Theorem parse_calls_follow_cycle_discipline (fd : Z) ctx
    (bytes : list byte) w :
  cycle_disciplined fd ctx bytes w.
Proof. apply io_read_cycle. Qed.

(** The step of the scan at an fd whose [io_read] failed with anything
    but [HOUND_INTR]: one log line, and on to the next entry. *)
Lemma io_poll_scan_after_failed_read (reads : Z → read_result)
    (pfd : pollfd) (pfds : list pollfd) (i : nat) (fds : Z)
    (ctxs : list (fdctx drv_priv)) w ctx (err : Z) ctx' w1 :
  0 < fds → pfd_revents pfd ≠ 0 →
  Z.land (pfd_revents pfd) POLL_HAS_DATA ≠ 0 →
  ctxs !! i = Some ctx →
  io_read (pfd_fd pfd) ctx (reads (pfd_fd pfd)) w = Ret (err, ctx', w1) →
  err ≠ HOUND_OK → err ≠ HOUND_INTR →
  io_poll_scan reads (pfd :: pfds) i fds ctxs w
  = io_poll_scan reads pfds (S i) (fds - 1) (<[i := ctx']> ctxs)
                 (hound_log_err err grab_failed_line w1).
Proof.
  intros Hfds Hev Hdata Hctx Hread Herr Hintr. cbn [io_poll_scan].
  rewrite Hctx, Hread. by repeat case_decide; try lia.
Qed.


Section Mutators.
Variable xv_oom : ∀ A : Type, list A → list A.
Variable RM_VEC_INDEX : ∀ A : Type, nat → list A → list A.


(** [io_add_fd] resumes the loop on every path that returns. *)
Lemma io_add_fd_resumes (fd : Z) d (flags setfl : Z)
    (s s' : statics drv_priv) w w' (err : Z) :
  io_add_fd xv_oom fd d flags setfl s w = Ret (err, s', w') →
  w_barrier w' = w_barrier w ++ [Pause; Resume] ∧
  s_poll_active_target s' = true.
Proof.
  unfold io_add_fd, io_pause_poll, io_resume_poll, xv_push, next_alloc.
  repeat case_decide; try done.
  destruct s as [cs fs tgt cur], w as [rb h plan lg rds cls ps br].
  destruct cur; simpl;
    destruct plan as [|[] [|[] [|[] plan]]]; simpl;
    intros [= <- <- <-]; simpl; by rewrite <- app_assoc.
Qed.

(** When [io_add_fd] fails after the pollfd entry was pushed, the entry is
    popped again: [s_ios.fds] is what it was. *)
Lemma io_add_fd_failure_restores_fds (fd : Z) d (flags setfl : Z)
    (s s' : statics drv_priv) w w' (err : Z) (plan : list bool) :
  w_alloc w = true :: plan →
  io_add_fd xv_oom fd d flags setfl s w = Ret (err, s', w') →
  err ≠ HOUND_OK →
  err = HOUND_OOM ∧ s_fds s' = s_fds s.
Proof.
  unfold io_add_fd, io_pause_poll, io_resume_poll, xv_push, next_alloc,
    xv_pop.
  intros Hplan. repeat case_decide; try done.
  destruct s as [cs fs tgt cur], w as [rb h pl lg rds cls ps br].
  simpl in Hplan. subst pl.
  destruct cur; simpl;
    destruct plan as [|[] [|[] plan]]; simpl;
    intros [= <- <- <-]; simpl; try done; intros _;
    by rewrite removelast_last.
Qed.

Lemma io_remove_fd_resumes (fd : Z) (s s' : statics drv_priv) w w' :
  io_remove_fd RM_VEC_INDEX fd s w = Ret (s', w') →
  w_barrier w' = w_barrier w ++ [Pause; Resume] ∧
  s_poll_active_target s' = true.
Proof.
  unfold io_remove_fd, io_pause_poll, io_resume_poll.
  destruct (get_fd_index fd s); [|done].
  destruct s as [cs fs tgt cur], w as [rb h plan lg rds cls ps br].
  destruct cur; simpl; intros [= <- <-]; simpl; by rewrite <- app_assoc.
Qed.

Lemma io_remove_queue_resumes (fd : Z) (q : queue)
    (s s' : statics drv_priv) w w' :
  io_remove_queue RM_VEC_INDEX fd q s w = Ret (s', w') →
  w_barrier w' = w_barrier w ++ [Pause; Resume] ∧
  s_poll_active_target s' = true.
Proof.
  unfold io_remove_queue, io_pause_poll, io_resume_poll.
  destruct (get_fd_index fd s); [|done].
  destruct (s_ctx s !! _) as [ctx|]; [|done].
  destruct s as [cs fs tgt cur], w as [rb h plan lg rds cls ps br].
  destruct cur; simpl; destruct (detach_queue _ _ _); try done;
    intros [= <- <-]; simpl; by rewrite <- app_assoc.
Qed.

Lemma io_add_queue_ok_resumes (fd : Z) (q : queue)
    (s s' : statics drv_priv) w w' :
  io_add_queue xv_oom fd q s w = Ret (HOUND_OK, s', w') →
  w_barrier w' = w_barrier w ++ [Pause; Resume] ∧
  s_poll_active_target s' = true.
Proof.
  unfold io_add_queue, io_pause_poll, io_resume_poll, attach_queue, xv_push,
    next_alloc.
  destruct (get_fd_index fd s); [|done].
  destruct (s_ctx s !! _) as [ctx|]; [|done].
  destruct s as [cs fs tgt cur], w as [rb h plan lg rds cls ps br].
  destruct cur; simpl; destruct plan as [|[] plan]; simpl; try done;
    intros [= <- <-]; simpl; by rewrite <- app_assoc.
Qed.

(** C7. [io_add_queue] pauses the loop before it touches the queue
    vector, but when the push fails it returns [HOUND_OOM] without
    resuming: the barrier has seen a pause and no resume, and a loop that
    was active stays blocked in [io_wait_for_ready]. *)
Theorem io_add_queue_oom_returns_without_resume (fd : Z) (q : queue)
    (s : statics drv_priv) w (index : nat) ctx (plan : list bool) :
  get_fd_index fd s = Some index →
  s_ctx s !! index = Some ctx →
  w_alloc w = false :: plan →
  ∃ s' w',
    io_add_queue xv_oom fd q s w = Ret (HOUND_OOM, s', w') ∧
    w_barrier w' = w_barrier w ++ [Pause] ∧
    (s_poll_active_current s = true →
     s_poll_active_target s' = false ∧ io_wait_for_ready s' = None).
Proof.
  intros Hi Hctx Hplan. unfold io_add_queue. rewrite Hi, Hctx.
  unfold io_pause_poll, attach_queue, xv_push, next_alloc.
  destruct s as [cs fs tgt cur], w as [rb h pl lg rds cls ps br].
  simpl in *. subst pl. destruct cur; simpl.
  - eexists _, _. split_and!; try done.
  - eexists _, _. split_and!; try done.
Qed.

End Mutators.

(** Interrupted by the pause signal, the turn ends at once and the thread
    is back at [io_wait_for_ready] with nothing changed. *)
Lemma ppoll_eintr_goes_back_to_wait (reads : Z → read_result)
    (s : statics drv_priv) w :
  io_poll_turn (PollFailed EINTR) reads s w = Ret (s, w).
Proof. by destruct s. Qed.

Lemma ppoll_eio_is_logged_and_then_asserts (reads : Z → read_result)
    (s : statics drv_priv) w :
  io_poll_turn (PollFailed EIO) reads s w
  = Aborted "XASSERT_GT (fds, 0)"
            (hound_log_err EIO "poll failed with EIO" w).
Proof. done. Qed.

(** C5. When [ppoll] fails with [ENOMEM], the loop logs the error and then
    runs into [XASSERT_GT (fds, 0)] with [fds = -1]: the process stops
    instead of going back to [io_wait_for_ready]. *)
Theorem ppoll_enomem_is_logged_and_then_asserts (reads : Z → read_result)
    (s : statics drv_priv) w :
  io_poll_turn (PollFailed ENOMEM) reads s w
  = Aborted "XASSERT_GT (fds, 0)"
            (hound_log_err ENOMEM "poll failed with ENOMEM" w).
Proof. done. Qed.

End Claims.

(** The batch of three records whose second allocation fails: records one
    and three are delivered with sequence numbers 5 and 6. *)
Lemma oom_skips_one_record_witness :
  0 ≤ 5 < 2 ^ 64 ∧
  batch_skips_failed
    (mk_fdctx (demo_driver 3 (-19)) 5 [10; 11]%nat)
    [mk_record 0 7 0 (0, 0) 1 [x01]; mk_record 0 8 0 (0, 0) 1 [x02];
     mk_record 0 9 0 (0, 0) 1 [x03]]
    (mk_world [] [] [true; false] [] [] [] [] []).
Proof.
  split; [lia|].
  apply (oom_skips_one_record_without_seqno_gap
           (mk_fdctx (demo_driver 3 (-19)) 5 [10; 11]%nat)).
  simpl. lia.
Defined.

(** A filler byte is consumed without a record and two bytes remain, yet
    the driver is not called again: the cycle is not the one the spec
    words describe. *)
Lemma recordless_progress_is_not_reinvoked :
  ¬ ∃ w',
      run_world (io_read 4 (mk_fdctx (demo_driver 3 (-19)) 0 [10%nat])
                         (ReadBytes [xfe; x01; x02]) empty_world) = Some w'
      ∧ cycle_as_specified [xfe; x01; x02] 0 3 (w_calls w').
Proof.
  intros (w' & Hw & Hcyc). vm_compute in Hw. injection Hw as <-.
  cbn [w_calls] in Hcyc.
  inversion Hcyc; subst.
  - match goal with H : pc_err _ ≠ HOUND_OK |- _ => by apply H end.
  - match goal with H : pc_left _ = _ |- _ => discriminate H end.
  - match goal with H : cycle_as_specified _ _ _ [] |- _ =>
      cbn [pc_left] in H; inversion H end.
Qed.


(** The life of an fd, run: a queue is attached, four bytes arrive (two
    records), a second queue is attached, three bytes arrive (one record
    and a leftover byte), with the second allocation failing on the way.
    The wrappers that exist carry 0 and 1. *)
Lemma fd_session_example :
  ∃ ctx w,
    fd_session (λ _ v, v) (λ _ i v, delete i v) 4
      [Attach 10%nat; Readable (ReadBytes [x01; x02; x03; x04]);
       Attach 11%nat; Readable (ReadBytes [x05; x06; x07])]
      (mk_fdctx (demo_driver 3 (-19)) 0 [])
      (mk_world [] [] [true; true; false; true] [] [] [] [] [])
    = Ret (ctx, w) ∧
    next_seqno ctx = 2 ∧
    (λ o : option record_info,
       (λ ri : record_info, (seqno (record ri), refcount ri)) <$> o)
      <$> w_rec_infos w
    = [Some (0, 1%nat); Some (1, 2%nat)] ∧
    w_pushes w = [(10, 0); (10, 1); (11, 1)]%nat.
Proof. eexists _, _. split; [vm_compute; reflexivity|]. by vm_compute. Qed.

Lemma io_add_queue_oom_witness :
  let ctx := mk_fdctx (demo_driver 3 (-19)) 0 [] in
  let s := mk_statics [ctx] [mk_pollfd 4 POLL_HAS_DATA 0] true true in
  let w := mk_world [] [] [false] [] [] [] [] [] in
  get_fd_index 4 s = Some 0%nat ∧ s_ctx s !! 0%nat = Some ctx ∧
  w_alloc w = [false] ∧
  ∃ s' w',
    io_add_queue (λ _ v, v) 4 10%nat s w = Ret (HOUND_OOM, s', w') ∧
    w_barrier w' = w_barrier w ++ [Pause] ∧
    (s_poll_active_current s = true →
     s_poll_active_target s' = false ∧ io_wait_for_ready s' = None).
Proof.
  intros ctx s w. split_and!; [reflexivity..|].
  apply (io_add_queue_oom_returns_without_resume
           (λ _ v, v) 4 10%nat s w 0%nat ctx []); reflexivity.
Defined.




Section SchemaClaims.
Variable xv_oom : ∀ A : Type, list A → list A.
Variable parse_type : string → option Z.
Variable parse_num : string → option Z.

(** C8. When the name of the second format entry cannot be duplicated,
    [parse_fmts] returns with [*out_count = 1] but without having stored
    the array in [*out_fmts]; the cleanup in [parse] then calls
    [destroy_desc_fmts(1, NULL)], which reads [fmts[0].name] through the
    NULL pointer. The error is not returned and the array of formats and
    the name of the first entry are still allocated. *)
Theorem schema_parse_oom_cleanup_reads_null_fmts (t : Z) :
  parse_num "1" = Some 1 → parse_num "4" = Some 4 →
  parse_type "float" = Some t →
  ∃ h,
    Schema.parse xv_oom parse_type parse_num [accel_schema]
                 (Schema.mk_heap [] oom_at_second_fmt_name)
    = Schema.Stopped "fmts[i].name read through a NULL fmts" h ∧
    Schema.live h = [1; 2]%nat ∧
    Schema.h_blocks h !! 2%nat = Some (Schema.Chars "x").
Proof.
  intros Hid Hsize Htype. eexists.
  unfold Schema.parse, accel_schema, oom_at_second_fmt_name.
  cbn. rewrite ?Hid, ?Hsize, ?Htype. cbn.
  rewrite ?Hid, ?Hsize, ?Htype. cbn.
  split_and!; reflexivity.
Qed.

(** When it is the name of the first entry that cannot be duplicated,
    [parse] does return [HOUND_OOM] and no array, but the array of formats
    stays allocated: nothing points to it any more. *)
Lemma schema_parse_oom_leaks_fmts :
  parse_num "1" = Some 1 →
  ∃ h,
    Schema.parse xv_oom parse_type parse_num [accel_schema]
                 (Schema.mk_heap [] oom_at_first_fmt_name)
    = Schema.Done (HOUND_OOM, Schema.Wild, None, h) ∧
    Schema.live h = [1%nat].
Proof.
  intros Hid. eexists.
  unfold Schema.parse, accel_schema, oom_at_first_fmt_name.
  cbn. rewrite ?Hid. cbn. split; reflexivity.
Qed.

(** Without a failed allocation the same schema parses to one descriptor
    with two formats. *)
Lemma schema_parse_ok (t : Z) :
  parse_num "1" = Some 1 → parse_num "4" = Some 4 →
  parse_type "float" = Some t →
  ∃ h,
    Schema.parse xv_oom parse_type parse_num [accel_schema]
                 (Schema.mk_heap [] [])
    = Schema.Done (HOUND_OK, Schema.Addr 4, Some 1%nat, h) ∧
    Schema.h_blocks h !! 4%nat
    = Some (Schema.Descs
              [Schema.mk_desc (Some 1) (Schema.Addr 0) 2 (Schema.Addr 1)]).
Proof.
  intros Hid Hsize Htype. eexists.
  unfold Schema.parse, accel_schema.
  cbn. rewrite ?Hid, ?Hsize, ?Htype. cbn.
  rewrite ?Hid, ?Hsize, ?Htype. cbn.
  split; reflexivity.
Qed.

End SchemaClaims.

Lemma schema_parse_oom_cleanup_witness :
  let parse_num := λ s : string,
    if decide (s = "1"%string) then Some 1 else Some 4 in
  let parse_type := λ _ : string, Some 0 in
  parse_num "1"%string = Some 1 ∧ parse_num "4"%string = Some 4 ∧
  parse_type "float"%string = Some 0 ∧
  ∃ h,
    Schema.parse (λ _ v, v) parse_type parse_num [accel_schema]
                 (Schema.mk_heap [] oom_at_second_fmt_name)
    = Schema.Stopped "fmts[i].name read through a NULL fmts" h ∧
    Schema.live h = [1; 2]%nat ∧
    Schema.h_blocks h !! 2%nat = Some (Schema.Chars "x").
Proof.
  intros parse_num parse_type. split_and!; [reflexivity..|].
  apply (schema_parse_oom_cleanup_reads_null_fmts
           (λ _ v, v) parse_type parse_num 0); reflexivity.
Defined.

(** One [io_read], run: five bytes arrive for a driver that makes a record
    of every two; three parse calls follow each other at offsets 0, 2 and
    4, the last leaves its byte where it is and ends the cycle; the two
    records get 0 and 1 and go to both queues. *)
Lemma io_read_example :
  ∃ ctx w,
    io_read 4 (mk_fdctx (demo_driver 3 (-19)) 0 [10; 11]%nat)
            (ReadBytes [x01; x02; x03; x04; x05]) empty_world
    = Ret (HOUND_OK, ctx, w) ∧
    (λ c, (pc_pos c, pc_buf c, pc_left c)) <$> w_calls w
    = [(0, [x01; x02; x03; x04; x05], 3); (2, [x03; x04; x05], 1);
       (4, [x05], 1)]%nat ∧
    next_seqno ctx = 2 ∧
    w_pushes w = [(10, 0); (11, 0); (10, 1); (11, 1)]%nat.
Proof. eexists _, _. split; [vm_compute; reflexivity|]. by vm_compute. Qed.

(** * Further properties of the code *)

Section MoreIoRead.
Context {drv_priv : Type}.
Implicit Types (ctx : fdctx drv_priv) (w : world) (d : driver drv_priv).

Lemma parse_cycle_length (data : list byte) (pos n : nat)
    (calls : list parse_call) (e : cycle_end) :
  parse_cycle data pos n calls e → (length calls ≤ n)%nat.
Proof. induction 1; simpl; lia. Qed.

(** X1. [io_read] calls the parse hook at most once per byte that [read]
    returned (at most [POLL_BUF_SIZE] times), and not at all when [read]
    failed: the loop always ends. *)
Theorem io_read_makes_at_most_one_call_per_byte (fd : Z) ctx
    (rd : read_result) w :
  calls_bounded fd ctx rd w.
Proof.
  unfold calls_bounded. destruct rd as [bytes|errno].
  - destruct (io_read_cycle fd ctx bytes w)
      as (w' & calls & e & Hw' & Hc & Hcyc & _).
    exists w', calls. split_and!; try done.
    apply parse_cycle_length in Hcyc. rewrite length_take in Hcyc. lia.
  - unfold io_read. repeat case_decide; eexists _, []; simpl;
      rewrite app_nil_r; split_and!; try done; by destruct w.
Qed.

Lemma parse_loop_nothing_lost (fuel : nat) ctx (pos n : nat) w :
  (n < fuel)%nat →
  ∀ data rest,
    w_read_buf w = data ++ rest → (pos + n ≤ length data)%nat →
    w_alloc w = [] →
    ∃ w' calls,
      run_world (parse_loop fuel ctx pos n w) = Some w' ∧
      w_calls w' = w_calls w ++ calls ∧
      w_rec_infos w'
      = w_rec_infos w
          ++ (Some <$> stamped (next_seqno ctx) (id (drv ctx))
                (length (queues ctx))
                (concat (pc_records <$> filter progressed calls))).
Proof.
  apply (parse_loop_cases (λ ctx pos n w r,
    ∀ data rest,
      w_read_buf w = data ++ rest → (pos + n ≤ length data)%nat →
      w_alloc w = [] →
      ∃ w' calls,
        run_world r = Some w' ∧ w_calls w' = w_calls w ++ calls ∧
        w_rec_infos w'
        = w_rec_infos w
            ++ (Some <$> stamped (next_seqno ctx) (id (drv ctx))
                  (length (queues ctx))
                  (concat (pc_records <$> filter progressed calls))))).
  - intros c p w0 data rest _ _ _. exists w0, []. simpl.
    by rewrite !app_nil_r.
  - intros c p k w0 d reply Hk Hcall Herr data rest Hbuf Hn _.
    destruct (call_made_reply _ _ _ _ _ _ Hcall) as (He & Hl & Hr).
    eexists _, [call_made c p k w0]. split_and!; [done|by destruct w0|].
    rewrite filter_cons_False by (intros [? _]; congruence).
    destruct w0; simpl. by rewrite app_nil_r.
  - intros c p k w0 d reply Hk Hcall Herr Hgt data rest Hbuf Hn _.
    destruct (call_made_reply _ _ _ _ _ _ Hcall) as (He & Hl & Hr).
    destruct (call_made_offered c p k w0 data rest Hbuf Hn) as (_ & _ & Hlen).
    eexists _, [call_made c p k w0]. split_and!; [done|by destruct w0|].
    rewrite filter_cons_False by (intros [_ ?]; lia).
    destruct w0; simpl. by rewrite app_nil_r.
  - intros c p k w0 d reply Hk Hcall Herr Heq data rest Hbuf Hn _.
    destruct (call_made_reply _ _ _ _ _ _ Hcall) as (He & Hl & Hr).
    destruct (call_made_offered c p k w0 data rest Hbuf Hn) as (_ & _ & Hlen).
    eexists _, [call_made c p k w0]. split_and!; [done|by destruct w0|].
    rewrite filter_cons_False by (intros [_ ?]; lia).
    destruct w0; simpl. by rewrite app_nil_r.
  - intros c p k w0 d reply Hk Hcall Herr Hlt Hnil data rest Hbuf Hn _.
    destruct (call_made_reply _ _ _ _ _ _ Hcall) as (He & Hl & Hr).
    eexists _, [call_made c p k w0]. split_and!; [done|by destruct w0|].
    assert (Hnone : concat (pc_records <$> filter progressed
                                         [call_made c p k w0]) = []).
    { destruct (decide (progressed (call_made c p k w0))).
      - rewrite filter_cons_True by done. simpl. by rewrite Hr, Hnil.
      - by rewrite filter_cons_False by done. }
    rewrite Hnone. destruct w0; simpl. by rewrite app_nil_r.
  - intros c p k w0 d reply r Hk Hcall Herr Hlt Hrec.
    rewrite publish_all_eq. intros IH data rest Hbuf Hn Hplan.
    destruct (call_made_reply _ _ _ _ _ _ Hcall) as (He & Hl & Hr).
    destruct (call_made_offered c p k w0 data rest Hbuf Hn) as (_ & _ & Hlen).
    pose proof (drv_op_parse_id _ _ _ _ _ Hcall) as Hid.
    assert (Hplan' : w_alloc (call_logged c p k w0) = []) by by destruct w0.
    rewrite Hplan', delivered_nil in IH.
    destruct (IH data rest) as (w' & calls & Hw' & Hc & Hi).
    { by destruct w0. }
    { lia. }
    { simpl. by rewrite drop_nil. }
    exists w', (call_made c p k w0 :: calls). split_and!; [done| |].
    + rewrite Hc. destruct w0; simpl. by rewrite <- app_assoc.
    + rewrite filter_cons_True by (split; [congruence|lia]).
      cbn [fmap list_fmap concat]. rewrite Hr, stamped_app, fmap_app, Hi.
      cbn [after_call next_seqno drv queues w_rec_infos].
      rewrite Hid. destruct w0; simpl. by rewrite <- app_assoc.
Qed.

(** X2. When no allocation fails, [io_read] loses nothing: the wrappers
    it makes are exactly the records of the parse calls that returned
    [HOUND_OK] and consumed bytes, in the order the driver returned them.
    The records of a call that failed or left the byte count unchanged
    are not published. *)
Theorem io_read_publishes_every_record_of_a_progressing_call (fd : Z) ctx
    (bytes : list byte) w :
  w_alloc w = [] →
  nothing_lost fd ctx bytes w.
Proof.
  intros Hplan. unfold nothing_lost, io_read.
  set (data := take POLL_BUF_SIZE bytes).
  destruct (parse_loop_nothing_lost (S (length data)) ctx 0 (length data)
              (set_read_buf (λ b, data ++ drop (length data) b)
                 (set_reads (λ l, l ++ [fd]) w))
              ltac:(lia) data (drop (length data) (w_read_buf w)))
    as (w' & calls & Hw' & Hc & Hi);
    [by destruct w|simpl; lia|by destruct w|].
  by exists w', calls.
Qed.

(** X3. Of a record the driver returned, [io_read] changes the sequence
    number and the device id, which it sets to the id of the driver of
    the fd; data id, timestamp, size and payload reach the wrapper as the
    driver wrote them, and every wrapper comes from a record that a parse
    call of this cycle returned. *)
Theorem io_read_stamps_only_seqno_and_dev_id (fd : Z) ctx
    (rd : read_result) w :
  stamps_seqno_and_dev_id fd ctx rd w.
Proof.
  destruct (io_read_published fd ctx rd w)
    as (w' & calls & kept & Hw' & [Hc Hk Hi Hp Hcap Hl Hb Hr Hbar] & _).
  exists w', calls,
    (stamped (next_seqno ctx) (id (drv ctx)) (length (queues ctx)) kept),
    kept.
  split_and!; try done.
  - eapply Forall_impl; [apply stamped_refcounts|]. by intros ri [_ ?].
  - apply stamped_payload.
Qed.

(** ** A turn of the loop *)

Lemma io_read_keeps_registration (fd : Z) ctx (rd : read_result) w
    (err : Z) ctx' w' :
  io_read fd ctx rd w = Ret (err, ctx', w') →
  queues ctx' = queues ctx ∧ id (drv ctx') = id (drv ctx) ∧
  w_barrier w' = w_barrier w.
Proof.
  intros Hread.
  destruct (io_read_published fd ctx rd w)
    as (w1 & calls & kept & Hw1 & [Hc Hk Hi Hp Hcap Hl Hb Hr Hbar] & Hctx).
  rewrite Hread in Hw1. injection Hw1 as <-.
  destruct (Hctx _ _ _ Hread) as (_ & Hq & Hid).
  split_and!; try done.
Qed.


Lemma io_poll_scan_keeps_registration (reads : Z → read_result)
    (pfds : list pollfd) (i : nat) (fds : Z) (ctxs : list (fdctx drv_priv))
    w ctxs' w' :
  io_poll_scan reads pfds i fds ctxs w = Ret (ctxs', w') →
  (λ c, (id (drv c), queues c)) <$> ctxs'
  = (λ c, (id (drv c), queues c)) <$> ctxs
  ∧ w_barrier w' = w_barrier w.
Proof.
  revert i fds ctxs w.
  induction pfds as [|pfd pfds IH]; intros i fds ctxs w;
    [by intros [= <- <-]|].
  cbn [io_poll_scan].
  case_decide; [by intros [= <- <-]|].
  case_decide; [by apply IH|].
  case_decide; [done|].
  destruct (ctxs !! i) as [ctx|] eqn:Hctx; [|done].
  destruct (io_read (pfd_fd pfd) ctx (reads (pfd_fd pfd)) w)
    as [[[err ctx1] w1]|a w1|] eqn:Hread; [|done|done].
  destruct (io_read_keeps_registration _ _ _ _ _ _ _ Hread)
    as (Hq & Hid & Hbar).
  assert (Hsame : (λ c, (id (drv c), queues c)) <$> <[i := ctx1]> ctxs
                  = (λ c : fdctx drv_priv, (id (drv c), queues c)) <$> ctxs).
  { rewrite list_fmap_insert, Hq, Hid. apply list_insert_id.
    by rewrite list_lookup_fmap, Hctx. }
  case_decide; [intros [= <- <-]; by rewrite Hsame|].
  intros Hscan. apply IH in Hscan as [-> ->]. split; [done|].
  case_decide; [|done]. rewrite <- Hbar. by destruct w1.
Qed.

(** A turn that returns was interrupted before the scan, or its scan
    returned. *)
Lemma io_poll_turn_ret (res : ppoll_result) (reads : Z → read_result)
    (s s' : statics drv_priv) w w' :
  io_poll_turn res reads s w = Ret (s', w') →
  (s' = s ∧ w' = w) ∨
  ∃ revents fds ctxs,
    res = PollEvents revents ∧
    io_poll_scan reads (set_revents (s_fds s) revents) 0 fds (s_ctx s) w
    = Ret (ctxs, w') ∧
    s' = set_ctx ctxs (set_fds (set_revents (s_fds s) revents) s).
Proof.
  unfold io_poll_turn, ppoll.
  destruct res as [errno|revents].
  - destruct (decide (-1 = -1)) as [_|]; [|done].
    repeat case_decide; try done; try lia. intros [= <- <-].
    left. by destruct s.
  - set (pfds := set_revents (s_fds s) revents).
    set (fds := Z.of_nat (length (filter (λ pfd, pfd_revents pfd ≠ 0) pfds))).
    destruct (decide (fds = -1)) as [Hneg|_]; [lia|].
    case_decide; [done|]. cbn [s_ctx set_fds].
    destruct (io_poll_scan reads pfds 0 fds (s_ctx s) w)
      as [[ctxs w1]|a w1|] eqn:Hscan; [|done|done].
    intros [= <- <-]. right. by exists revents, fds, ctxs.
Qed.

Lemma io_poll_turn_sizes (res : ppoll_result) (reads : Z → read_result)
    (s s' : statics drv_priv) w w' :
  io_poll_turn res reads s w = Ret (s', w') →
  length (s_ctx s') = length (s_ctx s) ∧
  length (s_fds s') = length (s_fds s) ∧
  w_barrier w' = w_barrier w.
Proof.
  intros [[-> ->]|(revents & fds & ctxs & _ & Hscan & ->)]%io_poll_turn_ret;
    [done|].
  apply io_poll_scan_keeps_registration in Hscan as [Hreg Hbar].
  cbn [s_ctx s_fds set_ctx set_fds]. split_and!; [| |done].
  - apply (f_equal length) in Hreg. by rewrite !length_fmap in Hreg.
  - pose proof (set_revents_same_fds (s_fds s) revents) as Hfds.
    apply (f_equal length) in Hfds. by rewrite !length_fmap in Hfds.
Qed.

(** X4. A turn of the loop that comes back to the top of the loop has
    changed nothing of what is registered: every fd context has the
    device and the queues it had, [s_ios.fds] holds the same fds with the
    same event masks, polling is still wanted, and the pause barrier was
    not touched. Reading moves only sequence counters and driver state. *)
Theorem io_poll_turn_keeps_registration (res : ppoll_result)
    (reads : Z → read_result) (s s' : statics drv_priv) w w' :
  io_poll_turn res reads s w = Ret (s', w') →
  registration s' = registration s ∧ w_barrier w' = w_barrier w.
Proof.
  intros [[-> ->]|(revents & fds & ctxs & _ & Hscan & ->)]%io_poll_turn_ret;
    [done|].
  apply io_poll_scan_keeps_registration in Hscan as [Hreg Hbar].
  split; [|done]. unfold registration.
  cbn [s_ctx s_fds set_ctx set_fds s_poll_active_target].
  by rewrite Hreg, set_revents_same_fds.
Qed.





(** ** The mutators *)

Section MoreMutators.
Variable xv_oom : ∀ A : Type, list A → list A.
Variable RM_VEC_INDEX : ∀ A : Type, nat → list A → list A.

Lemma io_add_fd_ok (fd : Z) d (flags setfl : Z)
    (s s' : statics drv_priv) w w' :
  io_add_fd xv_oom fd d flags setfl s w = Ret (HOUND_OK, s', w') →
  s_fds s' = s_fds s ++ [mk_pollfd fd POLL_HAS_DATA 0] ∧
  s_ctx s' = s_ctx s ++ [mk_fdctx d 0 []].
Proof.
  unfold io_add_fd, io_pause_poll, io_resume_poll, xv_push, next_alloc,
    xv_pop.
  repeat case_decide; try done.
  destruct s as [cs fs tgt cur], w as [rb h plan lg rds cls ps br].
  destruct cur; simpl;
    destruct plan as [|[] [|[] [|[] plan]]]; simpl;
    intros Heq; by simplify_eq/=.
Qed.

Lemma io_add_fd_failed (fd : Z) d (flags setfl : Z)
    (s s' : statics drv_priv) w w' (err : Z) :
  io_add_fd xv_oom fd d flags setfl s w = Ret (err, s', w') →
  err ≠ HOUND_OK →
  (s_fds s' = s_fds s ∨ s_fds s' = xv_oom _ (s_fds s)) ∧
  (s_ctx s' = s_ctx s ∨ s_ctx s' = xv_oom _ (s_ctx s)).
Proof.
  unfold io_add_fd, io_pause_poll, io_resume_poll, xv_push, next_alloc,
    xv_pop.
  repeat case_decide; try done.
  destruct s as [cs fs tgt cur], w as [rb h plan lg rds cls ps br].
  destruct cur; simpl;
    destruct plan as [|[] [|[] [|[] plan]]]; simpl;
    intros Heq; simplify_eq/=; try done; intros _;
    rewrite ?removelast_last; auto.
Qed.

Lemma get_fd_index_app_l (fd : Z) (s s' : statics drv_priv)
    (more : list pollfd) (i : nat) :
  s_fds s' = s_fds s ++ more →
  get_fd_index fd s = Some i → get_fd_index fd s' = Some i.
Proof.
  unfold get_fd_index. intros ->.
  destruct (list_find _ (s_fds s)) as [[j x]|] eqn:Hfind; [|done].
  intros [= ->]. by erewrite list_find_app_l.
Qed.

Lemma get_fd_index_app_new (fd : Z) (s s' : statics drv_priv) (ev rev : Z) :
  s_fds s' = s_fds s ++ [mk_pollfd fd ev rev] →
  get_fd_index fd s = None → get_fd_index fd s' = Some (length (s_fds s)).
Proof.
  unfold get_fd_index. intros ->.
  destruct (list_find _ (s_fds s)) as [[j x]|] eqn:Hfind; [done|].
  intros _. rewrite list_find_app_r by done. simpl.
  by rewrite decide_True.
Qed.

(** X7. After a successful [io_add_fd] the fd is at the end of
    [s_ios.fds] with events [POLLIN|POLLPRI], and its context, with
    sequence number 0 and no queue, at the end of [s_ios.ctx]. Lookups that
    succeeded before give the same index; so an fd that was registered
    already keeps its old slot and the new one is never found by
    [get_fd_index]. A new fd is found at the last index, where
    [get_fdctx] finds the new context if the vectors were aligned. *)
Theorem io_add_fd_then_get_fd_index (fd : Z) d (flags setfl : Z)
    (s s' : statics drv_priv) w w' :
  io_add_fd xv_oom fd d flags setfl s w = Ret (HOUND_OK, s', w') →
  s_fds s' = s_fds s ++ [mk_pollfd fd POLL_HAS_DATA 0] ∧
  s_ctx s' = s_ctx s ++ [mk_fdctx d 0 []] ∧
  (∀ fd' i, get_fd_index fd' s = Some i → get_fd_index fd' s' = Some i) ∧
  (get_fd_index fd s = None →
   get_fd_index fd s' = Some (length (s_fds s)) ∧
   (aligned s → s_ctx s' !! length (s_fds s) = Some (mk_fdctx d 0 []))).
Proof.
  intros [Hfds Hctx]%io_add_fd_ok. split_and!; try done.
  - intros fd' i. by eapply get_fd_index_app_l.
  - intros Hnew. split; [by eapply get_fd_index_app_new|].
    unfold aligned. intros <-. rewrite Hctx.
    by rewrite lookup_app_r, Nat.sub_diag.
Qed.

Lemma io_remove_fd_ret (fd : Z) (s s' : statics drv_priv) w w' :
  io_remove_fd RM_VEC_INDEX fd s w = Ret (s', w') →
  ∃ i, get_fd_index fd s = Some i ∧
       s_fds s' = RM_VEC_INDEX _ i (s_fds s) ∧
       s_ctx s' = RM_VEC_INDEX _ i (s_ctx s).
Proof.
  unfold io_remove_fd, io_pause_poll, io_resume_poll.
  destruct (get_fd_index fd s) as [i|]; [|done].
  destruct s as [cs fs tgt cur]. destruct cur; simpl;
    intros [= <- <-]; by exists i.
Qed.

Lemma io_add_queue_ret (fd : Z) (q : queue) (s s' : statics drv_priv)
    w w' (err : Z) :
  io_add_queue xv_oom fd q s w = Ret (err, s', w') →
  ∃ index ctx ctx',
    get_fd_index fd s = Some index ∧ s_ctx s !! index = Some ctx ∧
    s_fds s' = s_fds s ∧ s_ctx s' = <[index := ctx']> (s_ctx s) ∧
    next_seqno ctx' = next_seqno ctx ∧ drv ctx' = drv ctx ∧
    (if decide (err = HOUND_OK)
     then queues ctx' = queues ctx ++ [q]
          ∧ w_barrier w' = w_barrier w ++ [Pause; Resume]
     else queues ctx' = xv_oom _ (queues ctx)
          ∧ w_barrier w' = w_barrier w ++ [Pause]).
Proof.
  unfold io_add_queue, io_pause_poll, io_resume_poll, attach_queue, xv_push,
    next_alloc.
  destruct (get_fd_index fd s) as [index|]; [|done].
  destruct (s_ctx s !! index) as [ctx|] eqn:Hctx; [|done].
  destruct s as [cs fs tgt cur], w as [rb h plan lg rds cls ps br].
  destruct cur; simpl; destruct plan as [|[] plan]; simpl;
    intros Heq; simplify_eq/=; eexists index, ctx, _;
    split_and!; try done; simpl; by rewrite <- ?app_assoc.
Qed.

Lemma io_remove_queue_ret (fd : Z) (q : queue) (s s' : statics drv_priv)
    w w' :
  io_remove_queue RM_VEC_INDEX fd q s w = Ret (s', w') →
  ∃ index ctx j,
    get_fd_index fd s = Some index ∧ s_ctx s !! index = Some ctx ∧
    list_find (λ q', q' = q) (queues ctx) = Some (j, q) ∧
    s_fds s' = s_fds s ∧
    s_ctx s'
    = <[index := mk_fdctx (drv ctx) (next_seqno ctx)
                          (RM_VEC_INDEX _ j (queues ctx))]> (s_ctx s).
Proof.
  unfold io_remove_queue, io_pause_poll, io_resume_poll, detach_queue.
  destruct (get_fd_index fd s) as [index|]; [|done].
  destruct (s_ctx s !! index) as [ctx|] eqn:Hctx; [|done].
  destruct s as [cs fs tgt cur].
  destruct (list_find _ (queues ctx)) as [[j q']|] eqn:Hfind.
  2:{ by destruct cur. }
  assert (q' = q) as -> by (by apply list_find_Some in Hfind as (_ & ? & _)).
  destruct cur; simpl; intros [= <- <-]; by exists index, ctx, j.
Qed.

(** X8. The index alignment of [s_ios.fds] and [s_ios.ctx] is kept by
    every entry point that returns, on the failure paths of [io_add_fd]
    too, given that a failed [xv_push] leaves the size of the vector as it
    was and that [RM_VEC_INDEX] shortens two vectors of one size alike. *)
Theorem io_calls_keep_vectors_aligned (c : io_call)
    (s s' : statics drv_priv) w w' (err : Z) :
  (∀ A (v : list A), length (xv_oom A v) = length v) →
  (∀ A B i (v : list A) (v' : list B),
     length v = length v' →
     length (RM_VEC_INDEX A i v) = length (RM_VEC_INDEX B i v')) →
  aligned s →
  io_step xv_oom RM_VEC_INDEX c s w = Ret (err, s', w') →
  aligned s'.
Proof.
  unfold aligned. intros Hoom Hrm Hs.
  destruct c as [fd d flags setfl|fd|fd q|fd q|res reads]; cbn [io_step].
  - intros Hret. destruct (decide (err = HOUND_OK)) as [->|Herr].
    + apply io_add_fd_ok in Hret as [-> ->]. rewrite !length_app, Hs. done.
    + destruct (io_add_fd_failed _ _ _ _ _ _ _ _ _ Hret Herr)
        as [[-> | ->] [-> | ->]]; by rewrite ?Hoom.
  - destruct (io_remove_fd _ _ _ _) as [[s1 w1]|a w1|] eqn:Hret; [|done..].
    intros [= _ <- <-].
    apply io_remove_fd_ret in Hret as (i & _ & -> & ->). by apply Hrm.
  - intros (index & ctx & ctx' & _ & _ & -> & -> & _)%io_add_queue_ret.
    by rewrite length_insert.
  - destruct (io_remove_queue _ _ _ _ _) as [[s1 w1]|a w1|] eqn:Hret;
      [|done..].
    intros [= _ <- <-].
    apply io_remove_queue_ret in Hret
      as (index & ctx & j & _ & _ & _ & -> & ->).
    by rewrite length_insert.
  - destruct (io_poll_turn _ _ _ _) as [[s1 w1]|a w1|] eqn:Hret; [|done..].
    intros [= _ <- <-].
    apply io_poll_turn_sizes in Hret as (Hc & Hf & _). congruence.
Qed.

(** X9. Once [io_add_queue] has returned [HOUND_OK], the context of the
    fd has the queue at the end of its vector, with the sequence counter
    and the driver untouched; and every wrapper that a later [io_read] on
    this context makes counts one reference more than before and is
    pushed to the old queues, in order, and then to the new one. *)
Theorem io_add_queue_then_io_read (fd : Z) (q : queue)
    (s s' : statics drv_priv) w w' :
  io_add_queue xv_oom fd q s w = Ret (HOUND_OK, s', w') →
  ∃ index ctx ctx',
    get_fd_index fd s = Some index ∧ s_ctx s !! index = Some ctx ∧
    s_ctx s' !! index = Some ctx' ∧
    queues ctx' = queues ctx ++ [q] ∧
    next_seqno ctx' = next_seqno ctx ∧ drv ctx' = drv ctx ∧
    ∀ (rd : read_result) w0, ∃ w1 wrappers,
      run_world (io_read fd ctx' rd w0) = Some w1 ∧
      w_rec_infos w1 = w_rec_infos w0 ++ (Some <$> wrappers) ∧
      Forall (λ ri, refcount ri = S (length (queues ctx))) wrappers ∧
      ∀ p : nat,
        (length (w_rec_infos w0) ≤ p
         < length (w_rec_infos w0) + length wrappers)%nat →
        filter (λ x, x.2 = p) (drop (length (w_pushes w0)) (w_pushes w1))
        = ((λ q', (q', p)) <$> queues ctx) ++ [(q, p)].
Proof.
  intros (index & ctx & ctx' & Hidx & Hctx & _ & Hs' & Hseq & Hdrv & Hq)
    %io_add_queue_ret.
  rewrite decide_True in Hq by done. destruct Hq as [Hq _].
  exists index, ctx, ctx'. split_and!; try done.
  { rewrite Hs'. apply list_lookup_insert_eq. by eapply lookup_lt_Some. }
  intros rd w0.
  destruct (io_read_published fd ctx' rd w0)
    as (w1 & calls & kept & Hw1 & [Hc Hk Hi Hp Hcap Hl Hb Hr Hbar] & _).
  assert (Hinfos : w_rec_infos (after_read fd rd w0) = w_rec_infos w0)
    by by destruct w0.
  assert (Hpushes : w_pushes (after_read fd rd w0) = w_pushes w0)
    by by destruct w0.
  rewrite Hinfos in Hi, Hp. rewrite Hpushes in Hp.
  exists w1, (stamped (next_seqno ctx') (id (drv ctx'))
                      (length (queues ctx')) kept).
  split_and!; try done.
  - eapply Forall_impl; [apply stamped_refcounts|].
    intros ri [-> _]. rewrite Hq, length_app. simpl. lia.
  - intros p Hrange. rewrite stamped_length in Hrange.
    rewrite Hp, drop_app_length, fan_of_wrapper by done.
    by rewrite Hq, fmap_app.
Qed.

Lemma delete_app_lt {A : Type} (i : nat) (l k : list A) :
  (i < length l)%nat → delete i (l ++ k) = delete i l ++ k.
Proof.
  revert i. induction l as [|x l IH]; intros [|i] Hi; simpl in *;
    try lia; [done|]. f_equal. apply IH. lia.
Qed.

(** X10. With [RM_VEC_INDEX] removing the entry at the index and closing
    the gap, [io_remove_fd] after a successful [io_add_fd] of a new fd
    gives back the two vectors as they were. If the fd was registered
    already, it is the old entry and the old context that go, and the new
    ones stay. *)
Theorem io_remove_fd_after_io_add_fd (fd : Z) d (flags setfl : Z)
    (s s' : statics drv_priv) w w' :
  (∀ A i (v : list A), RM_VEC_INDEX A i v = delete i v) →
  aligned s →
  io_add_fd xv_oom fd d flags setfl s w = Ret (HOUND_OK, s', w') →
  ∃ s'' w'',
    io_remove_fd RM_VEC_INDEX fd s' w' = Ret (s'', w'') ∧
    match get_fd_index fd s with
    | None => s_fds s'' = s_fds s ∧ s_ctx s'' = s_ctx s
    | Some i =>
        s_fds s'' = delete i (s_fds s) ++ [mk_pollfd fd POLL_HAS_DATA 0] ∧
        s_ctx s'' = delete i (s_ctx s) ++ [mk_fdctx d 0 []]
    end.
Proof.
  unfold aligned. intros Hrm Hs [Hfds Hctx]%io_add_fd_ok.
  assert (Hidx : get_fd_index fd s'
                 = Some (default (length (s_fds s)) (get_fd_index fd s))).
  { destruct (get_fd_index fd s) as [i|] eqn:Hold; simpl.
    - by eapply get_fd_index_app_l.
    - by eapply get_fd_index_app_new. }
  destruct (io_remove_fd RM_VEC_INDEX fd s' w') as [[s'' w'']|a w1|] eqn:Hret.
  - exists s'', w''. split; [done|].
    apply io_remove_fd_ret in Hret as (i & Hi & -> & ->).
    rewrite Hidx in Hi. injection Hi as <-.
    rewrite !Hrm, Hfds, Hctx.
    destruct (get_fd_index fd s) as [i|] eqn:Hold; simpl.
    + assert (i < length (s_fds s))%nat.
      { unfold get_fd_index in Hold.
        destruct (list_find _ _) as [[j x]|] eqn:Hfind; [|done].
        injection Hold as ->.
        apply list_find_Some in Hfind as (Hl & _). by eapply lookup_lt_Some. }
      by rewrite !delete_app_lt by lia.
    + rewrite <- Hs at 2.
      by rewrite !delete_middle, !app_nil_r.
  - exfalso. revert Hret. unfold io_remove_fd. rewrite Hidx.
    unfold io_pause_poll, io_resume_poll.
    by destruct s' as [? ? ? []].
  - exfalso. revert Hret. unfold io_remove_fd. rewrite Hidx.
    unfold io_pause_poll, io_resume_poll.
    by destruct s' as [? ? ? []].
Qed.

(** X11. With [RM_VEC_INDEX] removing the entry at the index and closing
    the gap, [io_remove_queue] after a successful [io_add_queue] of a
    queue that was not attached gives back the fd contexts as they were.
    If the queue was attached already, the first of its two entries goes
    and the fd still delivers to it. *)
Theorem io_remove_queue_after_io_add_queue (fd : Z) (q : queue)
    (s s' : statics drv_priv) w w' :
  (∀ A i (v : list A), RM_VEC_INDEX A i v = delete i v) →
  io_add_queue xv_oom fd q s w = Ret (HOUND_OK, s', w') →
  ∃ s'' w'' index ctx ctx'',
    io_remove_queue RM_VEC_INDEX fd q s' w' = Ret (s'', w'') ∧
    get_fd_index fd s = Some index ∧ s_ctx s !! index = Some ctx ∧
    s_fds s'' = s_fds s ∧
    s_ctx s'' = <[index := ctx'']> (s_ctx s) ∧
    next_seqno ctx'' = next_seqno ctx ∧ drv ctx'' = drv ctx ∧
    match list_find (λ q', q' = q) (queues ctx) with
    | None => queues ctx'' = queues ctx ∧ s_ctx s'' = s_ctx s
    | Some (j, _) => queues ctx'' = delete j (queues ctx) ++ [q]
    end.
Proof.
  intros Hrm
    (index & ctx & ctx' & Hidx & Hctx & Hfds & Hs' & Hseq & Hdrv & Hq)
    %io_add_queue_ret.
  rewrite decide_True in Hq by done. destruct Hq as [Hq _].
  assert (Hlt : (index < length (s_ctx s))%nat) by by eapply lookup_lt_Some.
  assert (Hidx' : get_fd_index fd s' = Some index).
  { unfold get_fd_index. by rewrite Hfds. }
  assert (Hctx' : s_ctx s' !! index = Some ctx').
  { rewrite Hs'. by apply list_lookup_insert_eq. }
  assert (Hfind : ∃ j, list_find (λ q', q' = q) (queues ctx') = Some (j, q)
            ∧ j = match list_find (λ q', q' = q) (queues ctx) with
                  | None => length (queues ctx)
                  | Some (j, _) => j
                  end).
  { rewrite Hq.
    destruct (list_find _ (queues ctx)) as [[j q']|] eqn:Hold.
    - exists j. split; [|done].
      assert (q' = q) as ->
        by (by apply list_find_Some in Hold as (_ & ? & _)).
      by apply list_find_app_l.
    - exists (length (queues ctx)). split; [|done].
      rewrite list_find_app_r by done. simpl. by rewrite decide_True. }
  destruct Hfind as (j & Hfind & Hj).
  destruct (io_remove_queue RM_VEC_INDEX fd q s' w')
    as [[s'' w'']|a w1|] eqn:Hret.
  - apply io_remove_queue_ret in Hret
      as (index' & c & j' & Hi & Hc & Hf & Hfds'' & Hctx'').
    rewrite Hidx' in Hi. injection Hi as <-.
    rewrite Hctx' in Hc. injection Hc as <-.
    rewrite Hfind in Hf. injection Hf as <-.
    eexists s'', w'', index, ctx, _.
    split_and!; [done|done|done|congruence| | | |].
    + rewrite Hctx'', Hs', list_insert_insert_eq. done.
    + done.
    + done.
    + cbn [queues]. rewrite Hrm, Hq.
      destruct (list_find _ (queues ctx)) as [[j0 q0]|] eqn:Hold.
      * subst j0.
        assert (j < length (queues ctx))%nat.
        { apply list_find_Some in Hold as (Hl & _).
          by eapply lookup_lt_Some. }
        by rewrite delete_app_lt.
      * subst j. rewrite delete_middle, app_nil_r. split; [done|].
        rewrite Hctx'', Hs', list_insert_insert_eq, Hrm, Hq, Hseq, Hdrv.
        rewrite delete_middle, app_nil_r.
        apply list_insert_id. rewrite Hctx. by destruct ctx.
  - exfalso. revert Hret. unfold io_remove_queue.
    rewrite Hidx', Hctx'. unfold detach_queue. rewrite Hfind.
    unfold io_pause_poll, io_resume_poll. by destruct s' as [? ? ? []].
  - exfalso. revert Hret. unfold io_remove_queue.
    rewrite Hidx', Hctx'. unfold detach_queue. rewrite Hfind.
    unfold io_pause_poll, io_resume_poll. by destruct s' as [? ? ? []].
Qed.

(** X12. What each entry point that returns has done at the pause
    barrier: the mutators have paused and resumed the loop, once each, and
    left polling wanted, but for [io_add_queue] when it fails, which has
    paused only; a turn of [io_poll] does not touch the barrier. *)
Theorem io_calls_follow_the_barrier_protocol (c : io_call)
    (s s' : statics drv_priv) w w' (err : Z) :
  io_step xv_oom RM_VEC_INDEX c s w = Ret (err, s', w') →
  barrier_protocol c err s' w w'.
Proof.
  destruct c as [fd d flags setfl|fd|fd q|fd q|res reads];
    cbn [io_step barrier_protocol].
  - apply io_add_fd_resumes.
  - destruct (io_remove_fd _ _ _ _) as [[s1 w1]|a w1|] eqn:Hret; [|done..].
    intros [= _ <- <-]. by eapply io_remove_fd_resumes.
  - intros Hret. case_decide as Herr.
    + subst err. by eapply io_add_queue_ok_resumes.
    + apply io_add_queue_ret in Hret as (? & ? & ? & _ & _ & _ & _ & _ & _ & Hq).
      rewrite decide_False in Hq by done. apply Hq.
  - destruct (io_remove_queue _ _ _ _ _) as [[s1 w1]|a w1|] eqn:Hret;
      [|done..].
    intros [= _ <- <-]. by eapply io_remove_queue_resumes.
  - destruct (io_poll_turn _ _ _ _) as [[s1 w1]|a w1|] eqn:Hret; [|done..].
    intros [= _ <- <-]. by apply io_poll_turn_sizes in Hret as (_ & _ & ?).
Qed.

End MoreMutators.

End MoreIoRead.

Lemma io_read_publishes_every_record_witness :
  w_alloc empty_world = [] ∧
  nothing_lost 4 (mk_fdctx (demo_driver 3 (-19)) 0 [10%nat])
               [x01; x02; x03; x04; xff] empty_world.
Proof.
  split; [reflexivity|].
  by apply (io_read_publishes_every_record_of_a_progressing_call 4
              (mk_fdctx (demo_driver 3 (-19)) 0 [10%nat])).
Defined.

Lemma io_poll_turn_keeps_registration_witness :
  let s := mk_statics
             [mk_fdctx (demo_driver 3 (-19)) 0 [10%nat];
              mk_fdctx (demo_driver 6 (-19)) 0 [11%nat]]
             [mk_pollfd 4 POLL_HAS_DATA 0; mk_pollfd 5 POLL_HAS_DATA 0]
             true true in
  let reads := λ fd : Z, if decide (fd = 4) then ReadBytes [x01; x02]
                         else ReadBytes [xff] in
  ∃ s' w',
    io_poll_turn (PollEvents [POLLIN; POLLPRI]) reads s empty_world
    = Ret (s', w') ∧
    next_seqno <$> s_ctx s' = [1; 0] ∧
    registration s' = registration s ∧
    w_barrier w' = w_barrier empty_world.
Proof.
  intros s reads. eexists _, _. split; [vm_compute; reflexivity|].
  split; [reflexivity|].
  apply (io_poll_turn_keeps_registration
           (PollEvents [POLLIN; POLLPRI]) reads s).
  vm_compute. reflexivity.
Defined.


(** ** The mutators, run

    One fd (4) is registered, with one queue (10); a failed [xv_push]
    leaves the vector as it is and [RM_VEC_INDEX] closes the gap. *)

Lemma length_delete_alike {A B : Type} (i : nat) (v : list A) (v' : list B) :
  length v = length v' → length (delete i v) = length (delete i v').
Proof.
  revert i v'. induction v as [|x v IH]; intros i [|y v'] Hlen;
    try done. destruct i as [|i]; simpl in *; [lia|].
  f_equal. apply IH. lia.
Qed.

Lemma io_add_fd_then_get_fd_index_witness :
  let s := mk_statics [mk_fdctx (demo_driver 3 (-19)) 0 [10%nat]]
                      [mk_pollfd 4 POLL_HAS_DATA 0] true true in
  let d := demo_driver 6 (-19) in
  ∃ s' w',
    io_add_fd (λ _ v, v) 5 d 0 0 s empty_world = Ret (HOUND_OK, s', w') ∧
    s_fds s' = s_fds s ++ [mk_pollfd 5 POLL_HAS_DATA 0] ∧
    s_ctx s' = s_ctx s ++ [mk_fdctx d 0 []] ∧
    (∀ fd' i, get_fd_index fd' s = Some i → get_fd_index fd' s' = Some i) ∧
    (get_fd_index 5 s = None →
     get_fd_index 5 s' = Some (length (s_fds s)) ∧
     (aligned s → s_ctx s' !! length (s_fds s) = Some (mk_fdctx d 0 []))).
Proof.
  intros s d. eexists _, _. split; [vm_compute; reflexivity|].
  eapply (io_add_fd_then_get_fd_index (λ _ v, v) 5 d 0 0 s _ empty_world).
  vm_compute. reflexivity.
Defined.

Lemma io_calls_keep_vectors_aligned_witness :
  let s := mk_statics [mk_fdctx (demo_driver 3 (-19)) 0 [10%nat]]
                      [mk_pollfd 4 POLL_HAS_DATA 0] true true in
  let xv_oom := λ (A : Type) (v : list A), v in
  let RM_VEC_INDEX := λ (A : Type) (i : nat) (v : list A), delete i v in
  let w := mk_world [] [] [true; false] [] [] [] [] [] in
  (∀ A (v : list A), length (xv_oom A v) = length v) ∧
  (∀ A B i (v : list A) (v' : list B),
     length v = length v' →
     length (RM_VEC_INDEX A i v) = length (RM_VEC_INDEX B i v')) ∧
  aligned s ∧
  ∃ s' w',
    io_step xv_oom RM_VEC_INDEX (AddFd 5 (demo_driver 6 (-19)) 0 0) s w
    = Ret (HOUND_OOM, s', w') ∧
    aligned s'.
Proof.
  intros s xv_oom RM_VEC_INDEX w.
  assert (H1 : ∀ A (v : list A), length (xv_oom A v) = length v) by done.
  assert (H2 : ∀ A B i (v : list A) (v' : list B),
            length v = length v' →
            length (RM_VEC_INDEX A i v) = length (RM_VEC_INDEX B i v'))
    by (intros; by apply length_delete_alike).
  assert (H3 : aligned s) by reflexivity.
  split; [exact H1|]. split; [exact H2|]. split; [exact H3|].
  eexists _, _. split; [vm_compute; reflexivity|].
  eapply (io_calls_keep_vectors_aligned xv_oom RM_VEC_INDEX
           (AddFd 5 (demo_driver 6 (-19)) 0 0) s _ w _ HOUND_OOM H1 H2 H3).
  vm_compute. reflexivity.
Defined.

Lemma io_add_queue_then_io_read_witness :
  let ctx := mk_fdctx (demo_driver 3 (-19)) 0 [10%nat] in
  let s := mk_statics [ctx] [mk_pollfd 4 POLL_HAS_DATA 0] true true in
  ∃ s' w',
    io_add_queue (λ _ v, v) 4 11%nat s empty_world = Ret (HOUND_OK, s', w') ∧
    ∃ index ctx0 ctx',
      get_fd_index 4 s = Some index ∧ s_ctx s !! index = Some ctx0 ∧
      s_ctx s' !! index = Some ctx' ∧
      queues ctx' = queues ctx0 ++ [11%nat] ∧
      next_seqno ctx' = next_seqno ctx0 ∧ drv ctx' = drv ctx0 ∧
      ∀ (rd : read_result) w0, ∃ w1 wrappers,
        run_world (io_read 4 ctx' rd w0) = Some w1 ∧
        w_rec_infos w1 = w_rec_infos w0 ++ (Some <$> wrappers) ∧
        Forall (λ ri, refcount ri = S (length (queues ctx0))) wrappers ∧
        ∀ p : nat,
          (length (w_rec_infos w0) ≤ p
           < length (w_rec_infos w0) + length wrappers)%nat →
          filter (λ x, x.2 = p) (drop (length (w_pushes w0)) (w_pushes w1))
          = ((λ q', (q', p)) <$> queues ctx0) ++ [(11%nat, p)].
Proof.
  intros ctx s. eexists _, _. split; [vm_compute; reflexivity|].
  eapply (io_add_queue_then_io_read (λ _ v, v) 4 11%nat s _ empty_world).
  vm_compute. reflexivity.
Defined.

Lemma io_remove_fd_after_io_add_fd_witness :
  let s := mk_statics [mk_fdctx (demo_driver 3 (-19)) 0 [10%nat]]
                      [mk_pollfd 4 POLL_HAS_DATA 0] true true in
  let xv_oom := λ (A : Type) (v : list A), v in
  let RM_VEC_INDEX := λ (A : Type) (i : nat) (v : list A), delete i v in
  (∀ A i (v : list A), RM_VEC_INDEX A i v = delete i v) ∧
  aligned s ∧
  ∃ s' w',
    io_add_fd xv_oom 5 (demo_driver 6 (-19)) 0 0 s empty_world
    = Ret (HOUND_OK, s', w') ∧
    ∃ s'' w'',
      io_remove_fd RM_VEC_INDEX 5 s' w' = Ret (s'', w'') ∧
      match get_fd_index 5 s with
      | None => s_fds s'' = s_fds s ∧ s_ctx s'' = s_ctx s
      | Some i =>
          s_fds s'' = delete i (s_fds s) ++ [mk_pollfd 5 POLL_HAS_DATA 0] ∧
          s_ctx s''
          = delete i (s_ctx s) ++ [mk_fdctx (demo_driver 6 (-19)) 0 []]
      end.
Proof.
  intros s xv_oom RM_VEC_INDEX.
  assert (H1 : ∀ A i (v : list A), RM_VEC_INDEX A i v = delete i v) by done.
  assert (H2 : aligned s) by reflexivity.
  split; [exact H1|]. split; [exact H2|].
  eexists _, _. split; [vm_compute; reflexivity|].
  eapply (io_remove_fd_after_io_add_fd xv_oom RM_VEC_INDEX 5
           (demo_driver 6 (-19)) 0 0 s _ empty_world _ H1 H2).
  vm_compute. reflexivity.
Defined.

Lemma io_remove_queue_after_io_add_queue_witness :
  let s := mk_statics [mk_fdctx (demo_driver 3 (-19)) 0 [10%nat]]
                      [mk_pollfd 4 POLL_HAS_DATA 0] true true in
  let xv_oom := λ (A : Type) (v : list A), v in
  let RM_VEC_INDEX := λ (A : Type) (i : nat) (v : list A), delete i v in
  (∀ A i (v : list A), RM_VEC_INDEX A i v = delete i v) ∧
  ∃ s' w',
    io_add_queue xv_oom 4 11%nat s empty_world = Ret (HOUND_OK, s', w') ∧
    ∃ s'' w'' index ctx ctx'',
      io_remove_queue RM_VEC_INDEX 4 11%nat s' w' = Ret (s'', w'') ∧
      get_fd_index 4 s = Some index ∧ s_ctx s !! index = Some ctx ∧
      s_fds s'' = s_fds s ∧
      s_ctx s'' = <[index := ctx'']> (s_ctx s) ∧
      next_seqno ctx'' = next_seqno ctx ∧ drv ctx'' = drv ctx ∧
      match list_find (λ q', q' = 11%nat) (queues ctx) with
      | None => queues ctx'' = queues ctx ∧ s_ctx s'' = s_ctx s
      | Some (j, _) => queues ctx'' = delete j (queues ctx) ++ [11%nat]
      end.
Proof.
  intros s xv_oom RM_VEC_INDEX.
  assert (H1 : ∀ A i (v : list A), RM_VEC_INDEX A i v = delete i v) by done.
  split; [exact H1|].
  eexists _, _. split; [vm_compute; reflexivity|].
  eapply (io_remove_queue_after_io_add_queue xv_oom RM_VEC_INDEX 4 11%nat
           s _ empty_world _ H1).
  vm_compute. reflexivity.
Defined.

(** [io_add_queue] with the push failing: a pause and no resume. *)
Lemma io_calls_follow_the_barrier_protocol_witness :
  let s := mk_statics [mk_fdctx (demo_driver 3 (-19)) 0 [10%nat]]
                      [mk_pollfd 4 POLL_HAS_DATA 0] true true in
  let xv_oom := λ (A : Type) (v : list A), v in
  let RM_VEC_INDEX := λ (A : Type) (i : nat) (v : list A), delete i v in
  let w := mk_world [] [] [false] [] [] [] [] [] in
  ∃ s' w',
    io_step xv_oom RM_VEC_INDEX (AddQueue 4 11%nat) s w
    = Ret (HOUND_OOM, s', w') ∧
    w_barrier w' = [Pause] ∧
    barrier_protocol (AddQueue 4 11%nat) HOUND_OOM s' w w'.
Proof.
  intros s xv_oom RM_VEC_INDEX w.
  eexists _, _. split; [vm_compute; reflexivity|].
  split; [reflexivity|].
  eapply (io_calls_follow_the_barrier_protocol xv_oom RM_VEC_INDEX
           (AddQueue 4 11%nat) s _ w _ HOUND_OOM).
  vm_compute. reflexivity.
Defined.

(** * [schema.c]: copying a descriptor *)

Section SchemaCopyFacts.
Import Schema SchemaCopy.

Lemma length_copied (base : nat) (cs : list hound_data_fmt) :
  length (copied base cs) = length cs.
Proof. revert base. induction cs; intros base; simpl; by f_equal. Qed.

Lemma copied_app (base : nat) (xs ys : list hound_data_fmt) :
  copied base (xs ++ ys)
  = copied base xs ++ copied (base + length xs) ys.
Proof.
  revert base. induction xs as [|x xs IH]; intros base; simpl.
  - by rewrite Nat.add_0_r.
  - rewrite IH. do 3 f_equal. lia.
Qed.

Lemma live_app_freed (blocks : list block) (k : nat) (p p' : list bool) :
  live (mk_heap (blocks ++ replicate k Freed) p) = live (mk_heap blocks p').
Proof.
  unfold live. cbn [h_blocks]. rewrite imap_app, filter_app.
  assert (Hnone : ∀ (f : nat → block → nat * block),
            (∀ i b, (f i b).2 = b) →
            filter (λ x : nat * block, is_live x.2 = true)
                   (imap f (replicate k Freed)) = []).
  { induction k as [|k IH]; intros f Hf; [done|].
    cbn [replicate imap]. rewrite filter_cons_False.
    - apply IH. intros i b. apply Hf.
    - rewrite Hf. done. }
  rewrite Hnone by done. by rewrite app_nil_r.
Qed.

Lemma free_live_block (pre post : list block) (b : block) (p : list bool)
    (a : nat) :
  a = length pre → is_live b = true →
  free (Addr a) (mk_heap (pre ++ b :: post) p)
  = Done (mk_heap (pre ++ Freed :: post) p).
Proof.
  intros -> Hb. unfold free. cbn [h_blocks h_alloc].
  rewrite list_lookup_middle by done.
  replace (length pre) with (length pre + 0)%nat by lia.
  rewrite insert_app_r. by destruct b.
Qed.

Lemma read_str_mono (p : ptr) (h h' : heap) (more : list block) (s : string) :
  h_blocks h' = h_blocks h ++ more →
  read_str p h = Some s → read_str p h' = Some s.
Proof.
  unfold read_str. intros ->. destruct p as [|a|]; try done.
  destruct (h_blocks h !! a) as [b|] eqn:Hb; [|done].
  by rewrite (lookup_app_l_Some _ _ _ _ Hb).
Qed.

Lemma strdup_read (p : ptr) (h : heap) (s : string) :
  read_str p h = Some s → strdup p h = Done (malloc (Chars s) h).
Proof.
  unfold read_str, strdup. destruct p as [|a|]; try done.
  destruct (h_blocks h !! a) as [[]|]; try done. by intros [= ->].
Qed.

(** Freeing the names of cells that were copied into consecutive
    blocks. *)
Lemma free_names_copied (cs : list hound_data_fmt) (strs : list string)
    (pre post : list block) (p : list bool) :
  length strs = length cs →
  free_names (copied (length pre) cs)
             (mk_heap (pre ++ (Chars <$> strs) ++ post) p)
  = Done (mk_heap (pre ++ replicate (length cs) Freed ++ post) p).
Proof.
  revert strs pre. induction cs as [|c cs IH]; intros [|s strs] pre Hlen;
    try done.
  cbn [copied free_names fmt_name fmap list_fmap app length replicate].
  rewrite free_live_block by done.
  replace (pre ++ Freed :: (Chars <$> strs) ++ post)
    with ((pre ++ [Freed]) ++ (Chars <$> strs) ++ post)
    by by rewrite <- app_assoc.
  replace (S (length pre)) with (length (pre ++ [Freed]))
    by (rewrite length_app; simpl; lia).
  rewrite IH by (simpl in Hlen; lia).
  by rewrite <- app_assoc.
Qed.

Lemma free_names_copied_at (base : nat) (cs : list hound_data_fmt)
    (strs : list string) (pre post : list block) (p : list bool) :
  base = length pre → length strs = length cs →
  free_names (copied base cs)
             (mk_heap (pre ++ (Chars <$> strs) ++ post) p)
  = Done (mk_heap (pre ++ replicate (length cs) Freed ++ post) p).
Proof. intros ->. apply free_names_copied. Qed.

Lemma destroy_desc_fmts_array (count a : nat) (cells : list hound_data_fmt)
    (h : heap) :
  h_blocks h !! a = Some (Fmts cells) → (count ≤ length cells)%nat →
  destroy_desc_fmts count (Addr a) h
  = match free_names (take count cells) h with
    | Done h => free (Addr a) h
    | Stopped why h => Stopped why h
    end.
Proof.
  intros Ha Hle. unfold destroy_desc_fmts. case_decide as Hc.
  - subst count. by rewrite take_0.
  - by rewrite Ha, decide_True.
Qed.

Lemma copy_state_array (blocks : list block) (s : string)
    (done : list hound_data_fmt) (n : nat) (strs : list string) :
  copy_state blocks s done n strs !! S (length blocks)
  = Some (Fmts (copied (S (S (length blocks))) done
                  ++ replicate n (mk_fmt Wild None None None None))).
Proof.
  unfold copy_state.
  rewrite lookup_app_r by lia.
  by replace (S (length blocks) - length blocks)%nat with 1%nat by lia.
Qed.

Lemma copy_state_set_array (blocks : list block) (s : string)
    (done : list hound_data_fmt) (n : nat) (strs : list string) (b : block) :
  <[S (length blocks) := b]> (copy_state blocks s done n strs)
  = blocks ++ [Chars s; b] ++ (Chars <$> strs).
Proof.
  unfold copy_state.
  rewrite insert_app_r_alt by lia.
  by replace (S (length blocks) - length blocks)%nat with 1%nat by lia.
Qed.

Lemma length_copy_state (blocks : list block) (s : string)
    (done : list hound_data_fmt) (n : nat) (strs : list string) :
  length (copy_state blocks s done n strs)
  = (S (S (length blocks)) + length strs)%nat.
Proof.
  unfold copy_state. rewrite !length_app, length_fmap. simpl. lia.
Qed.

(** The loop of [copy_desc_fmts] from any of its states: it fills the
    rest of the array, or it frees the array and the names copied so
    far. *)
Lemma copy_desc_fmts_loop_shape (h0 : heap) (s : string) (src : ptr)
    (todo : list hound_data_fmt) (ftodo : list fmt_view) :
  Forall2 (λ c v, read_fmt h0 c = Some v) todo ftodo →
  ∀ (done : list hound_data_fmt) (strs : list string) (p : list bool),
    length strs = length done →
    (∀ k c more p', todo !! k = Some c →
       read_cell src (length done + k) (mk_heap (h_blocks h0 ++ more) p')
       = Some c) →
    ∃ err h',
      copy_desc_fmts_loop (length todo) src (S (length (h_blocks h0)))
        (length done)
        (mk_heap (copy_state (h_blocks h0) s done (length todo) strs) p)
      = Done (err, h') ∧
      ((err = HOUND_OK ∧
        h_blocks h'
        = copy_state (h_blocks h0) s (done ++ todo) 0
                     (strs ++ (fmt_str <$> ftodo)))
       ∨ (err = HOUND_OOM ∧
          ∃ k, h_blocks h' = h_blocks h0 ++ [Chars s] ++ replicate k Freed)).
Proof.
  induction 1 as [|c v todo ftodo Hc Hrest IH]; intros done strs p Hlen Hcell.
  { eexists _, _. split; [done|]. left. split; [done|].
    by rewrite !app_nil_r. }
  cbn [length copy_desc_fmts_loop].
  set (B := h_blocks h0) in *.
  set (st := copy_state B s done (S (length todo)) strs).
  assert (Hread : read_cell src (length done) (mk_heap st p) = Some c).
  { specialize (Hcell 0%nat c). rewrite Nat.add_0_r in Hcell.
    unfold st, copy_state. by apply Hcell. }
  rewrite Hread. clear Hread.
  unfold read_fmt in Hc.
  destruct (read_str (fmt_name c) h0) as [str|] eqn:Hstr; [|done].
  injection Hc as <-.
  assert (Hstr' : read_str (fmt_name c) (mk_heap st p) = Some str).
  { eapply read_str_mono; [|done]. unfold st, copy_state. done. }
  unfold copy_desc_fmt. rewrite (strdup_read _ _ _ Hstr').
  unfold malloc, Schema.next_alloc. cbn [h_alloc h_blocks].
  assert (Hfail : ∀ p',
    ∃ err h',
      (if decide (HOUND_OOM ≠ HOUND_OK)
       then match destroy_desc_fmts (length done) (Addr (S (length B)))
                    (write_cell (S (length B)) (length done)
                       (mk_fmt Wild None None None None) (mk_heap st p'))
            with
            | Done h => Done (HOUND_OOM, h)
            | Stopped why h => Stopped why h
            end
       else copy_desc_fmts_loop (length todo) src (S (length B))
              (S (length done))
              (write_cell (S (length B)) (length done)
                 (mk_fmt Wild None None None None) (mk_heap st p')))
      = Done (err, h') ∧
      ((err = HOUND_OK ∧
        h_blocks h'
        = copy_state B s (done ++ c :: todo) 0
            (strs ++ (fmt_str
                        <$> (str, fmt_unit c, fmt_offset c, fmt_size c,
                             fmt_type c) :: ftodo)))
       ∨ (err = HOUND_OOM ∧
          ∃ k, h_blocks h' = B ++ [Chars s] ++ replicate k Freed))).
  { intros p'. rewrite decide_True by done.
    assert (Hw : write_cell (S (length B)) (length done)
                   (mk_fmt Wild None None None None) (mk_heap st p')
                 = mk_heap st p').
    { unfold write_cell. cbn [h_blocks h_alloc]. unfold st.
      rewrite copy_state_array.
      rewrite insert_app_r_alt by (rewrite length_copied; lia).
      rewrite length_copied, Nat.sub_diag. cbn [replicate].
      change (<[0%nat := ?x]> (?y :: ?l)) with (x :: l).
      rewrite list_insert_id; [done|]. apply copy_state_array. }
    rewrite Hw.
    erewrite destroy_desc_fmts_array;
      [|cbn [h_blocks]; unfold st; apply copy_state_array
       |rewrite length_app, length_copied; lia].
    rewrite take_app_length' by (by rewrite length_copied).
    unfold st, copy_state.
    rewrite (app_assoc B).
    rewrite <- (app_nil_r (Chars <$> strs)).
    rewrite free_names_copied_at
      by (try done; rewrite length_app; simpl; lia).
    rewrite app_nil_r, <- app_assoc. cbn [app].
    rewrite (cons_middle (Chars s) B), app_assoc.
    rewrite (free_live_block (B ++ [Chars s])) by
      (try done; rewrite length_app; simpl; lia).
    eexists _, _. split; [done|]. right. split; [done|].
    exists (S (length done)). cbn [h_blocks replicate].
    by rewrite <- app_assoc. }
  assert (Hok : ∀ p',
    ∃ err h',
      (if decide (HOUND_OK ≠ HOUND_OK)
       then match destroy_desc_fmts (length done) (Addr (S (length B)))
                    (write_cell (S (length B)) (length done)
                       (mk_fmt (Addr (length st)) (fmt_unit c)
                               (fmt_offset c) (fmt_size c) (fmt_type c))
                       (mk_heap (st ++ [Chars str]) p'))
            with
            | Done h => Done (HOUND_OK, h)
            | Stopped why h => Stopped why h
            end
       else copy_desc_fmts_loop (length todo) src (S (length B))
              (S (length done))
              (write_cell (S (length B)) (length done)
                 (mk_fmt (Addr (length st)) (fmt_unit c)
                         (fmt_offset c) (fmt_size c) (fmt_type c))
                 (mk_heap (st ++ [Chars str]) p')))
      = Done (err, h') ∧
      ((err = HOUND_OK ∧
        h_blocks h'
        = copy_state B s (done ++ c :: todo) 0
            (strs ++ (fmt_str
                        <$> (str, fmt_unit c, fmt_offset c, fmt_size c,
                             fmt_type c) :: ftodo)))
       ∨ (err = HOUND_OOM ∧
          ∃ k, h_blocks h' = B ++ [Chars s] ++ replicate k Freed))).
  { intros p'. rewrite decide_False by (intros ?; done).
    assert (Hw : write_cell (S (length B)) (length done)
                   (mk_fmt (Addr (length st)) (fmt_unit c)
                           (fmt_offset c) (fmt_size c) (fmt_type c))
                   (mk_heap (st ++ [Chars str]) p')
                 = mk_heap (copy_state B s (done ++ [c]) (length todo)
                                       (strs ++ [str])) p').
    { unfold write_cell. cbn [h_blocks h_alloc].
      rewrite (lookup_app_l_Some _ _ _ _
                 (copy_state_array B s done (S (length todo)) strs)).
      rewrite insert_app_l by (unfold st; rewrite length_copy_state; lia).
      unfold st. rewrite copy_state_set_array.
      rewrite insert_app_r_alt by (rewrite length_copied; lia).
      rewrite length_copied, Nat.sub_diag. cbn [replicate].
      change (<[0%nat := ?x]> (?y :: ?l)) with (x :: l).
      rewrite length_copy_state, Hlen.
      unfold copy_state. rewrite copied_app, fmap_app.
      cbn [copied fmap list_fmap].
      rewrite <- !app_assoc. cbn [app].
      by do 4 f_equal. }
    rewrite Hw. clear Hw.
    replace (S (length done)) with (length (done ++ [c]))
      by (rewrite length_app; simpl; lia).
    destruct (IH (done ++ [c]) (strs ++ [str]) p')
      as (err & h' & Hrun & Hshape).
    { rewrite !length_app. simpl. lia. }
    { intros k c0 more p0 Hk. rewrite length_app. cbn [length].
      replace (length done + 1 + k)%nat with (length done + S k)%nat by lia.
      by apply Hcell. }
    exists err, h'. split; [exact Hrun|].
    destruct Hshape as [[-> Hb]|[-> Hk]]; [left|by right].
    split; [done|]. rewrite Hb. cbn [fmap list_fmap fmt_str fst].
    by rewrite <- !app_assoc. }
  destruct p as [|[] p]; cbn [fst snd h_blocks h_alloc];
    [apply Hok|apply Hok|apply Hfail].
Qed.

Lemma malloc_cases (b : block) (h : heap) :
  ∃ p',
    malloc b h
    = (Addr (length (h_blocks h)), mk_heap (h_blocks h ++ [b]) p')
    ∨ malloc b h = (NULL, mk_heap (h_blocks h) p').
Proof.
  unfold malloc, Schema.next_alloc. destruct h as [blocks [|[] p]];
    cbn [h_blocks h_alloc]; eauto.
Qed.

(** What [read_fmts] read is what [copy_desc_fmts] will read, whatever is
    allocated in between. *)
Lemma read_fmts_cells (count : nat) (p : ptr) (h : heap)
    (fs : list fmt_view) :
  read_fmts count p h = Some fs →
  ∃ srcs,
    length srcs = count ∧
    Forall2 (λ c v, read_fmt h c = Some v) srcs fs ∧
    ∀ k c more p', srcs !! k = Some c →
      read_cell p k (mk_heap (h_blocks h ++ more) p') = Some c.
Proof.
  unfold read_fmts. case_decide as Hc.
  { intros [= <-]. exists []. by split_and!. }
  destruct p as [|a|]; try done.
  destruct (h_blocks h !! a) as [[| cells | |]|] eqn:Ha; try done.
  case_decide as Hle; [|done]. intros Hmap%mapM_Some_1.
  exists (take count cells). split_and!; [|done|].
  - rewrite length_take. lia.
  - intros k c more p' [Hk _]%lookup_take_Some.
    unfold read_cell. cbn [h_blocks].
    by rewrite (lookup_app_l_Some _ _ _ _ Ha).
Qed.

Lemma copy_schema_desc_shape (src schema : schema_desc) (h : heap)
    (id : option Z) (s : string) (fs : list fmt_view) :
  read_desc src h = Some (id, s, fs) →
  ∃ err schema' h',
    copy_schema_desc src schema h = Done (err, schema', h') ∧
    ((err = HOUND_OK ∧
      schema' = mk_desc (sd_data_id src) (Addr (length (h_blocks h)))
                        (sd_fmt_count src) (Addr (S (length (h_blocks h)))) ∧
      ∃ srcs,
        length srcs = sd_fmt_count src ∧
        Forall2 (λ c v, read_fmt h c = Some v) srcs fs ∧
        h_blocks h' = copy_state (h_blocks h) s srcs 0 (fmt_str <$> fs))
     ∨ (err = HOUND_OOM ∧ schema' = schema ∧
        ∃ k, h_blocks h' = h_blocks h ++ replicate k Freed)).
Proof.
  unfold read_desc.
  destruct (read_str (sd_name src) h) as [s0|] eqn:Hname; [|done].
  destruct (read_fmts _ _ h) as [fs0|] eqn:Hfmts; [|done].
  intros [= <- <- <-].
  destruct (read_fmts_cells _ _ _ _ Hfmts) as (srcs & Hlen & Hviews & Hcell).
  unfold copy_schema_desc. rewrite (strdup_read _ _ _ Hname).
  destruct (malloc_cases (Chars s0) h) as (p1 & [-> | ->]).
  2:{ rewrite decide_True by done. eexists _, _, _. split; [done|].
      right. split_and!; try done. exists 0%nat. cbn [h_blocks replicate].
      by rewrite app_nil_r. }
  rewrite decide_False by done.
  set (B := h_blocks h) in *.
  unfold copy_desc_fmts.
  destruct (malloc_cases
              (Fmts (replicate (sd_fmt_count src)
                               (mk_fmt Wild None None None None)))
              (mk_heap (B ++ [Chars s0]) p1)) as (p2 & [-> | ->]).
  2:{ rewrite decide_True by done. cbn [h_blocks].
      rewrite (free_live_block B []) by done.
      eexists _, _, _. split; [done|]. right. split_and!; try done.
      by exists 1%nat. }
  cbn [h_blocks].
  replace (length (B ++ [Chars s0])) with (S (length B))
    by (rewrite length_app; simpl; lia).
  replace ((B ++ [Chars s0])
             ++ [Fmts (replicate (sd_fmt_count src)
                                 (mk_fmt Wild None None None None))])
    with (copy_state B s0 [] (sd_fmt_count src) [])
    by (unfold copy_state; rewrite <- app_assoc; done).
  destruct (copy_desc_fmts_loop_shape h s0 (sd_fmts src) srcs fs0 Hviews
              [] [] p2) as (err & h' & Hrun & Hshape); [done|done|].
  fold B in Hrun, Hshape. cbn [length] in Hrun. rewrite Hlen in Hrun.
  rewrite Hrun.
  destruct Hshape as [[-> Hb]|[-> (k & Hk)]].
  - rewrite decide_False by (intros ?; done).
    eexists _, _, _. split; [done|]. left. split_and!; try done.
    exists srcs. split_and!; try done.
  - rewrite decide_True by done. destruct h' as [blocks' plan'].
    cbn [h_blocks] in Hk. subst blocks'.
    cbn [app]. rewrite (free_live_block B (replicate k Freed)) by done.
    eexists _, _, _. split; [done|]. right. split_and!; try done.
    by exists (S k).
Qed.

Lemma read_copied (h0 h' : heap) (srcs : list hound_data_fmt)
    (fs : list fmt_view) :
  Forall2 (λ c v, read_fmt h0 c = Some v) srcs fs →
  ∀ base,
    (∀ k v, fs !! k = Some v →
       h_blocks h' !! (base + k)%nat = Some (Chars (fmt_str v))) →
    Forall2 (λ c v, read_fmt h' c = Some v) (copied base srcs) fs.
Proof.
  induction 1 as [|c v srcs fs Hc _ IH]; intros base Hblocks;
    cbn [copied]; constructor.
  - specialize (Hblocks 0%nat v eq_refl). rewrite Nat.add_0_r in Hblocks.
    unfold read_fmt, read_str in *. cbn [fmt_name]. rewrite Hblocks.
    cbn [fmap option_fmap option_map fmt_unit fmt_offset fmt_size fmt_type].
    destruct (fmt_name c) as [|a|]; try done.
    destruct (h_blocks h0 !! a) as [[]|]; try done.
    by injection Hc as <-.
  - apply IH. intros k v' Hk.
    replace (S base + k)%nat with (base + S k)%nat by lia.
    by apply Hblocks.
Qed.

Lemma copy_state_names (blocks : list block) (s : string)
    (done : list hound_data_fmt) (n : nat) (strs : list string)
    (k : nat) (str : string) :
  strs !! k = Some str →
  copy_state blocks s done n strs !! (S (S (length blocks)) + k)%nat
  = Some (Chars str).
Proof.
  intros Hk. unfold copy_state.
  rewrite lookup_app_r by lia.
  replace (S (S (length blocks)) + k - length blocks)%nat
    with (S (S k)) by lia.
  change (([?x; ?y] ++ ?l) !! S (S k)) with (l !! k).
  by rewrite list_lookup_fmap, Hk.
Qed.

(** X13. [copy_schema_desc] of a descriptor that can be read (its name
    and the names of its [fmt_count] formats are strings) never stops the
    process and returns [HOUND_OK] or [HOUND_OOM]. On [HOUND_OK] the copy
    says what the source says, in blocks of its own that are appended to
    the heap, the source being untouched. On [HOUND_OOM] the destination
    is not written and every block allocated on the way has been freed:
    the set of live blocks is what it was. *)
Theorem copy_schema_desc_copies_or_leaves_nothing (src schema : schema_desc)
    (h : heap) (v : option Z * string * list fmt_view) :
  read_desc src h = Some v → copied_or_nothing src schema h.
Proof.
  destruct v as [[id s] fs]. intros Hsrc. unfold copied_or_nothing.
  destruct (copy_schema_desc_shape src schema h id s fs Hsrc)
    as (err & schema' & h' & Hrun & Hshape).
  destruct Hshape as [(-> & -> & srcs & Hlen & Hviews & Hb)
                     |(-> & -> & k & Hk)].
  - eexists _, _, h', _. split; [done|]. split; [exact Hb|].
    rewrite decide_True by done. split_and!; [|done|done|].
    + rewrite Hsrc. unfold read_desc. cbn [sd_name sd_fmts sd_fmt_count
                                            sd_data_id].
      assert (Hn : read_str (Addr (length (h_blocks h))) h' = Some s).
      { unfold read_str. rewrite Hb. unfold copy_state. cbn [app].
        by rewrite list_lookup_middle. }
      rewrite Hn.
      assert (Hid : sd_data_id src = id).
      { unfold read_desc in Hsrc.
        destruct (read_str _ h); [|done].
        destruct (read_fmts _ _ h); [|done]. by injection Hsrc. }
      enough (read_fmts (sd_fmt_count src) (Addr (S (length (h_blocks h)))) h'
              = Some fs) as -> by by rewrite Hid.
      unfold read_fmts. case_decide as Hc.
      * rewrite Hc in Hlen. destruct srcs; [|done].
        by inversion Hviews.
      * rewrite Hb, copy_state_array.
        rewrite decide_True
          by (rewrite length_app, length_copied; lia).
        rewrite take_app_length' by (by rewrite length_copied).
        apply mapM_Some_2, (read_copied h); [done|].
        intros k v Hk. rewrite Hb. apply copy_state_names.
        by rewrite list_lookup_fmap, Hk.
    + repeat constructor. apply Forall_fmap, Forall_true. done.
  - eexists _, _, h', _. split; [done|]. split; [exact Hk|].
    rewrite decide_False by done. split_and!; try done.
    destruct h as [B p], h' as [B' p']. cbn [h_blocks] in Hk. subst B'.
    apply live_app_freed.
Qed.

(** X14. [destroy_schema_desc] undoes [copy_schema_desc]: called on the
    copy, it returns, and afterwards the live blocks are those that were
    live before the copy was made, none of them changed. *)
Theorem destroy_schema_desc_undoes_copy_schema_desc
    (src schema schema' : schema_desc) (h h' : heap)
    (v : option Z * string * list fmt_view) :
  read_desc src h = Some v →
  copy_schema_desc src schema h = Done (HOUND_OK, schema', h') →
  ∃ h'' k,
    destroy_schema_desc schema' h' = Done h'' ∧
    h_blocks h'' = h_blocks h ++ replicate k Freed ∧
    live h'' = live h.
Proof.
  destruct v as [[id s] fs]. intros Hsrc Hcopy.
  destruct (copy_schema_desc_shape src schema h id s fs Hsrc)
    as (err & schema1 & h1 & Hrun & Hshape).
  rewrite Hcopy in Hrun. injection Hrun as <- <- <-.
  destruct Hshape as [(_ & -> & srcs & Hlen & Hviews & Hb)
                     |(? & _)]; [|done].
  destruct h' as [blocks' p']. cbn [h_blocks] in Hb. subst blocks'.
  set (B := h_blocks h).
  unfold destroy_schema_desc. cbn [sd_name sd_fmts sd_fmt_count].
  unfold copy_state. cbn [app].
  rewrite free_live_block by done.
  assert (Hlenfs : length (fmt_str <$> fs) = length srcs).
  { rewrite length_fmap. symmetry. by eapply Forall2_length. }
  erewrite destroy_desc_fmts_array;
    [|cbn [h_blocks]; rewrite (cons_middle Freed B), app_assoc;
      apply (list_lookup_middle (B ++ [Freed]));
      rewrite length_app; simpl; lia
     |rewrite length_app, length_copied; lia].
  rewrite <- Hlen.
  rewrite take_app_length' by (by rewrite length_copied).
  replace (B ++ Freed
             :: Fmts (copied (S (S (length B))) srcs
                        ++ replicate 0 (mk_fmt Wild None None None None))
             :: (Chars <$> (fmt_str <$> fs)))
    with ((B ++ [Freed;
                 Fmts (copied (S (S (length B))) srcs
                         ++ replicate 0 (mk_fmt Wild None None None None))])
            ++ (Chars <$> (fmt_str <$> fs)) ++ [])
    by (by rewrite <- app_assoc, (app_nil_r (Chars <$> (fmt_str <$> fs)))).
  rewrite free_names_copied_at
    by (try done; rewrite length_app; simpl; lia).
  rewrite app_nil_r, <- app_assoc. cbn [app].
  rewrite (cons_middle Freed B), app_assoc.
  rewrite (free_live_block (B ++ [Freed]))
    by (try done; rewrite length_app; simpl; lia).
  exists (mk_heap (B ++ replicate (S (S (length srcs))) Freed) p'),
    (S (S (length srcs))).
  split_and!.
  - by rewrite <- app_assoc, (app_nil_r (replicate _ _)).
  - done.
  - destruct h as [B0 p0]. apply live_app_freed.
Qed.

End SchemaCopyFacts.

(** A descriptor with two formats in a heap of four blocks; the fourth
    allocation of the copy (the name of the second format) fails. *)
Lemma copy_schema_desc_copies_or_leaves_nothing_witness :
  let h := Schema.mk_heap
             [Schema.Chars "accel"; Schema.Chars "x"; Schema.Chars "y";
              Schema.Fmts
                [Schema.mk_fmt (Schema.Addr 1)
                   (Some Schema.HOUND_UNIT_METERS_PER_S_SQUARED)
                   (Some 0) (Some 4) (Some 0);
                 Schema.mk_fmt (Schema.Addr 2)
                   (Some Schema.HOUND_UNIT_METERS_PER_S_SQUARED)
                   (Some 4) (Some 4) (Some 0)]]
             [true; true; true; false] in
  let src := Schema.mk_desc (Some 1) (Schema.Addr 0) 2 (Schema.Addr 3) in
  let schema := Schema.mk_desc None Schema.Wild 0 Schema.Wild in
  SchemaCopy.read_desc src h
  = Some (Some 1, "accel"%string,
          [("x"%string, Some Schema.HOUND_UNIT_METERS_PER_S_SQUARED,
            Some 0, Some 4, Some 0);
           ("y"%string, Some Schema.HOUND_UNIT_METERS_PER_S_SQUARED,
            Some 4, Some 4, Some 0)]) ∧
  (∃ h', SchemaCopy.copy_schema_desc src schema h
         = Schema.Done (HOUND_OOM, schema, h')) ∧
  SchemaCopy.copied_or_nothing src schema h.
Proof.
  intros h src schema. split; [reflexivity|]. split.
  - eexists. vm_compute. reflexivity.
  - eapply (copy_schema_desc_copies_or_leaves_nothing src schema h).
    reflexivity.
Defined.

Lemma destroy_schema_desc_undoes_copy_schema_desc_witness :
  let h := Schema.mk_heap
             [Schema.Chars "accel"; Schema.Chars "x"; Schema.Chars "y";
              Schema.Fmts
                [Schema.mk_fmt (Schema.Addr 1)
                   (Some Schema.HOUND_UNIT_METERS_PER_S_SQUARED)
                   (Some 0) (Some 4) (Some 0);
                 Schema.mk_fmt (Schema.Addr 2)
                   (Some Schema.HOUND_UNIT_METERS_PER_S_SQUARED)
                   (Some 4) (Some 4) (Some 0)]]
             [] in
  let src := Schema.mk_desc (Some 1) (Schema.Addr 0) 2 (Schema.Addr 3) in
  let schema := Schema.mk_desc None Schema.Wild 0 Schema.Wild in
  ∃ v schema' h',
    SchemaCopy.read_desc src h = Some v ∧
    SchemaCopy.copy_schema_desc src schema h
    = Schema.Done (HOUND_OK, schema', h') ∧
    Schema.live h' = [0; 1; 2; 3; 4; 5; 6; 7]%nat ∧
    ∃ h'' k,
      Schema.destroy_schema_desc schema' h' = Schema.Done h'' ∧
      Schema.h_blocks h''
      = Schema.h_blocks h ++ replicate k Schema.Freed ∧
      Schema.live h'' = Schema.live h.
Proof.
  intros h src schema. eexists _, _, _.
  split; [reflexivity|]. split; [vm_compute; reflexivity|].
  split; [reflexivity|].
  eapply (destroy_schema_desc_undoes_copy_schema_desc src schema _ h);
    reflexivity.
Defined.

(** * [schema.c]: parsing *)

(** X15. [find_unit] returns the unit whose entry in [unit_strs] is the
    string, and fails its [XASSERT_ERROR] exactly on the strings that are
    not in the table; the result does not depend on the order in which
    the table is searched, every unit has a string, and no two strings
    give the same unit. *)
Theorem find_unit_inverts_the_table :
  (∀ val u, Schema.find_unit val = Some u ↔ (u, val) ∈ Schema.unit_strs) ∧
  (∀ u, ∃ val, Schema.find_unit val = Some u) ∧
  (∀ val1 val2 u,
     Schema.find_unit val1 = Some u → Schema.find_unit val2 = Some u →
     val1 = val2).
Proof.
  assert (Hiff : ∀ val u,
            Schema.find_unit val = Some u ↔ (u, val) ∈ Schema.unit_strs).
  { intros val u. split.
    - unfold Schema.find_unit.
      destruct (list_find _ _) as [[i [u' val']]|] eqn:Hfind; [|done].
      intros [= <-]. apply list_find_Some in Hfind as (Hi & Hval & _).
      simpl in Hval. subst val'. by eapply list_elem_of_lookup_2.
    - unfold Schema.unit_strs. intros Hin.
      repeat (apply elem_of_cons in Hin as [[= -> ->]|Hin]; [reflexivity|]).
      by apply elem_of_nil in Hin. }
  split_and!; [done| |].
  - intros []; eexists; apply Hiff; unfold Schema.unit_strs;
      repeat first [by apply list_elem_of_here | apply list_elem_of_further].
  - intros val1 val2 u H1%Hiff H2%Hiff. unfold Schema.unit_strs in *.
    repeat (apply elem_of_cons in H1 as [[= -> ->]|H1];
            [repeat (apply elem_of_cons in H2 as [H2|H2];
                     [by simplify_eq|]);
             by apply elem_of_nil in H2|]).
    by apply elem_of_nil in H1.
Qed.

Section SchemaParseFacts.
Import Schema.
Variable xv_oom : ∀ A : Type, list A → list A.
Variable parse_type : string → option Z.
Variable parse_num : string → option Z.

Lemma parse_fmt_pairs_err (pairs : list (yaml_node * yaml_node))
    (fmt fmt' : hound_data_fmt) (h h' : heap) (err : Z) :
  parse_fmt_pairs parse_type parse_num pairs fmt h = Done (err, fmt', h') →
  err = HOUND_OK ∨ err = HOUND_OOM.
Proof.
  revert fmt h. induction pairs as [|[key value] pairs IH]; intros fmt h.
  { intros [= <- _ _]. by left. }
  cbn [parse_fmt_pairs].
  destruct key as [key_str| |]; try done.
  destruct value as [value_str| |]; try done.
  repeat case_decide; try done.
  - destruct (parse_str _ h) as [[name h1]|]; [|done].
    case_decide; [intros [= <- _ _]; by right|apply IH].
  - destruct (find_unit value_str); [apply IH|done].
  - destruct (parse_type value_str); [apply IH|done].
  - destruct (parse_num value_str); [apply IH|done].
Qed.

Lemma parse_fmts_items_err (items : list yaml_node) (a i count : nat)
    (h h' : heap) (err : Z) :
  parse_fmts_items parse_type parse_num items a i h = Done (err, count, h') →
  err = HOUND_OK ∨ err = HOUND_OOM.
Proof.
  revert i h. induction items as [|item items IH]; intros i h.
  { intros [= <- _ _]. by left. }
  cbn [parse_fmts_items]. unfold parse_fmt.
  destruct item as [|?|pairs]; try done.
  destruct (parse_fmt_pairs _ _ pairs _ h) as [[[e fmt] h1]|] eqn:Hfmt;
    [|done].
  apply parse_fmt_pairs_err in Hfmt.
  case_decide; [intros [= <- _ _]; done|apply IH].
Qed.

Lemma parse_fmts_err (node : yaml_node) (desc desc' : schema_desc)
    (h h' : heap) (err : Z) :
  parse_fmts parse_type parse_num node desc h = Done (err, desc', h') →
  err = HOUND_OK ∨ err = HOUND_OOM.
Proof.
  unfold parse_fmts. destruct node as [|items|]; try done.
  repeat case_decide; try done.
  destruct (malloc _ h) as [[|a|] h1]; try (intros [= <- _ _]; by right).
  destruct (parse_fmts_items _ _ items a 0 h1) as [[[e count] h2]|] eqn:Hit;
    [|done].
  apply parse_fmts_items_err in Hit.
  case_decide; intros [= <- _ _]; auto.
Qed.

Lemma parse_doc_pairs_err (pairs : list (yaml_node * yaml_node))
    (desc desc' : schema_desc) (h h' : heap) (err : Z) :
  parse_doc_pairs parse_type parse_num pairs desc h = Done (err, desc', h') →
  err = HOUND_OK ∨ err = HOUND_OOM.
Proof.
  revert desc h. induction pairs as [|[key value] pairs IH]; intros desc h.
  { intros [= <- _ _]. by left. }
  cbn [parse_doc_pairs].
  destruct key as [key_str| |]; try done.
  repeat case_decide; try done.
  - destruct value as [value_str| |]; try done.
    case_decide; [done|].
    destruct (parse_num value_str); [apply IH|done].
  - destruct value as [value_str| |]; try done.
    destruct (malloc _ h) as [name h1].
    case_decide; [intros [= <- _ _]; by right|apply IH].
  - destruct (parse_fmts _ _ value desc h) as [[[e d] h1]|] eqn:Hf; [|done].
    apply parse_fmts_err in Hf.
    case_decide; [intros [= <- _ _]; done|apply IH].
Qed.

Lemma parse_stream_err (docs : list yaml_node)
    (descs descs' : list schema_desc) (h h' : heap) (err : Z) :
  parse_stream xv_oom parse_type parse_num docs descs h
  = Done (err, descs', h') →
  (err = HOUND_OK ∧ length descs' = (length descs + length docs)%nat)
  ∨ err = HOUND_OOM.
Proof.
  revert descs h. induction docs as [|node docs IH]; intros descs h.
  { intros [= <- <- _]. left. split; [done|]. simpl. lia. }
  cbn [parse_stream].
  destruct (Schema.next_alloc h) as [[] h1]; cbn [negb];
    [|intros [= <- _ _]; by right].
  unfold parse_doc. destruct node as [| |pairs]; try done.
  destruct (parse_doc_pairs _ _ pairs _ h1) as [[[e d] h2]|] eqn:Hd; [|done].
  apply parse_doc_pairs_err in Hd.
  case_decide.
  - intros [= <- _ _]. right. by destruct Hd.
  - intros [[-> Hlen]| ->]%IH; [left|by right].
    split; [done|]. rewrite Hlen, length_app. simpl. lia.
Qed.

(** X16. What [parse] hands back when it returns: [HOUND_OK] with
    [*out_desc_count] the number of documents of the stream and
    [*out_descs] a new array of that many descriptors; or [HOUND_OOM],
    and then [*out_desc_count] is not written and [*out_descs] is not
    written or is [NULL]. No other error code is returned: whatever else
    is wrong with a schema fails an assertion. *)
Theorem parse_returns_ok_with_all_documents_or_oom (docs : list yaml_node)
    (h h' : heap) (err : Z) (out_descs : ptr) (out_desc_count : option nat) :
  Schema.parse xv_oom parse_type parse_num docs h
  = Done (err, out_descs, out_desc_count, h') →
  (err = HOUND_OK ∧ out_desc_count = Some (length docs) ∧
   ∃ a descs,
     out_descs = Addr a ∧ h_blocks h' !! a = Some (Descs descs) ∧
     length descs = length docs)
  ∨ (err = HOUND_OOM ∧ out_desc_count = None ∧
     (out_descs = Wild ∨ out_descs = NULL)).
Proof.
  unfold Schema.parse.
  destruct (Schema.next_alloc h) as [[] h1]; cbn [negb];
    [|intros [= <- <- <- _]; right; auto].
  destruct (parse_stream _ _ _ docs [] h1) as [[[e descs] h2]|] eqn:Hs;
    [|done].
  apply parse_stream_err in Hs as [[-> Hlen]| ->].
  - rewrite decide_True by done.
    destruct (malloc_cases (Descs descs) h2) as (p & [-> | ->]).
    + rewrite decide_False by (intros ?; done).
      intros [= <- <- <- <-]. left. split_and!; [done|by f_equal|].
      eexists _, descs. split_and!; [done| |done].
      cbn [h_blocks]. by apply list_lookup_middle.
    + rewrite decide_True by done.
      destruct (destroy_all descs _); [|done].
      intros [= <- <- <- _]. right. auto.
  - rewrite decide_False by done. rewrite decide_True by done.
    destruct (destroy_all descs _); [|done].
    intros [= <- <- <- _]. right. auto.
Qed.

End SchemaParseFacts.

Lemma parse_returns_ok_with_all_documents_or_oom_witness :
  let parse_num := λ s : string,
    if decide (s = "1"%string) then Some 1 else Some 4 in
  let parse_type := λ _ : string, Some 0 in
  let xv_oom := λ (A : Type) (v : list A), v in
  ∃ h' out_descs,
    Schema.parse xv_oom parse_type parse_num [accel_schema; accel_schema]
                 (Schema.mk_heap [] [])
    = Schema.Done (HOUND_OK, out_descs, Some 2%nat, h') ∧
    ((HOUND_OK = HOUND_OK ∧ Some 2%nat = Some (length [accel_schema; accel_schema]) ∧
      ∃ a descs,
        out_descs = Schema.Addr a ∧
        Schema.h_blocks h' !! a = Some (Schema.Descs descs) ∧
        length descs = length [accel_schema; accel_schema])
     ∨ (HOUND_OK = HOUND_OOM ∧ Some 2%nat = None ∧
        (out_descs = Schema.Wild ∨ out_descs = Schema.NULL))).
Proof.
  intros parse_num parse_type xv_oom. eexists _, _.
  split; [vm_compute; reflexivity|].
  eapply (parse_returns_ok_with_all_documents_or_oom xv_oom parse_type
            parse_num [accel_schema; accel_schema] (Schema.mk_heap [] [])).
  vm_compute. reflexivity.
Defined.
